(** * PyOmicron: segment tiling and Condor job management

    A shallow embedding of [omicron/segments.py] and, for the functions of
    [omicron/condor.py] that are exercised by [omicron/tests/test_condor.py],
    a model of what they are documented to do.

    Numbers.  A Python number is an [int] or a [float].  An [int] is an
    integer.  A [float] is a binary64 number: the rational it denotes, an
    infinity, or not a number; the sum, the difference and the quotient of
    two floats are the exact ones rounded to the nearest binary64 number,
    ties to even, and the rounding is written out.  The theorems on
    [omicron_output_segments] are stated for arguments between -2^50 and
    2^50, where no sum of the function is rounded; beyond 2^53 it is, and
    the function behaves otherwise.

    Loops.  The two [while] loops of [omicron_output_segments] run on fuel:
    one unit per iteration, [None] when the fuel runs out before the loop
    condition turns false.

    Files.  The file system is a finite map from path to content. *)

From Stdlib Require Import ZArith QArith Qround Qminmax Qabs Qpower Lia Lqa.
From Stdlib Require Import SpecFloat.
From Stdlib Require Import String Ascii List.
From Stdlib Require Import DecimalString DecimalZ DecimalPos.
From stdpp Require Import base option list gmap strings.

(** The line feed. *)
Definition LF : ascii := "010"%char.

(** ** omicron/segments.py *)

Module Segments.

Local Open Scope Q_scope.

(** A Python number. *)
Inductive num : Type :=
| PInt (z : Z)
| PFloat (q : Q).

(** The rational a number denotes. *)
Definition value (x : num) : Q :=
  match x with
  | PInt z => inject_Z z
  | PFloat q => q
  end.

(** [int(q)] on a float rounds toward zero. *)
Definition trunc (q : Q) : Z := Z.quot (Qnum q) (Zpos (Qden q)).

(** [int(x)] *)
Definition int (x : num) : Z :=
  match x with
  | PInt z => z
  | PFloat q => trunc q
  end.

(** [x < y] on floats. *)
Definition Qltb (x y : Q) : bool := negb (Qle_bool y x).

(** [glue.segments.segment]: a pair, kept ordered by its constructor. *)
Definition segment : Type := num * num.

(** [segment(a, b)]: [(a, b)] if [a <= b], and [(b, a)] otherwise. *)
Definition Segment (a b : num) : segment :=
  if Qle_bool (value a) (value b) then (a, b) else (b, a).

(** The length [seg[1] - seg[0]] of a segment, which is [abs(seg)] when it
    is not rounded. *)
Definition seg_abs (s : segment) : Q := value s.2 - value s.1.

(** [glue.segments.segmentlist]: a list of segments. *)
Abbreviation SegmentList := (list segment).

(** [type(s)(int(s[0]), int(s[1]))] *)
Definition int_segment (s : segment) : segment :=
  Segment (PInt (int s.1)) (PInt (int s.2)).

(** The decorator [integer_segments].  [f] may fail to return, and then so
    does the decorated function; the positional and keyword arguments are
    one value [args]. *)
Definition integer_segments {A : Type} (f : A → option SegmentList)
  : A → option SegmentList :=
  fun args =>
    match f args with
    | Some segs => Some (map int_segment segs)
    | None => None
    end.

(** ['%d' % x]: the decimal numeral of [int(x)]. *)
Definition pct_d (x : num) : string := NilZero.string_of_int (Z.to_int (int x)).

Definition newline : string := String LF EmptyString.

(** ['%d %d' % seg] *)
Definition format_segment (seg : segment) : string :=
  pct_d seg.1 +:+ " " +:+ pct_d seg.2.

(** The text printed by the loop of [write_segments]: one line per segment,
    each ended by a newline. *)
Fixpoint print_segments (segmentlist : SegmentList) (written : string) : string :=
  match segmentlist with
  | [] => written
  | seg :: rest => print_segments rest (written +:+ format_segment seg +:+ newline)
  end.

(** [write_segments(segmentlist, outfile)]: [outfile] is opened for writing,
    which empties it, and receives the lines. *)
Definition write_segments (segmentlist : SegmentList) (outfile : string)
    (fs : gmap string string) : gmap string string :=
  <[outfile := print_segments segmentlist EmptyString]> fs.

(** *** binary64 *)

(** A float: a finite one is the rational it denotes. *)
Inductive float : Type :=
| Finite (q : Q)
| Infinite (negative : bool)
| NaN.

(** The integer part of the binary logarithm of [|q|], for [q] not zero. *)
Definition ilog2 (q : Q) : Z :=
  let g := (Z.log2 (Z.abs (Qnum q)) - Z.log2 (Zpos (Qden q)))%Z in
  if Qle_bool (2 ^ g) (Qabs q) then g else (g - 1)%Z.

(** The integer nearest to [q], the even one of two that are as near. *)
Definition rne (q : Q) : Z :=
  let f := Qfloor q in
  match Qcompare (q - inject_Z f) (1 # 2) with
  | Lt => f
  | Gt => (f + 1)%Z
  | Eq => if Z.even f then f else (f + 1)%Z
  end.

(** The exponent of the last of the 53 bits of the binary64 numbers around
    [q]; it is never below -1074. *)
Definition ulp_exponent (q : Q) : Z := Z.max (ilog2 q - 52) (-1074).

(** The binary64 number nearest to [q], ties to even; an infinity from
    2^1024 on. *)
Definition round64 (q : Q) : float :=
  if Qeq_bool q 0 then Finite 0
  else
    let e := ulp_exponent q in
    let r := Qred (inject_Z (rne (q / 2 ^ e)) * 2 ^ e) in
    if Qle_bool (2 ^ 1024) (Qabs r) then Infinite (Qltb q 0) else Finite r.

(** [float(z)], as in [z + x] or [z / x] with [x] a float: it raises
    [OverflowError] when [z] is too large, and then there is no float. *)
Definition float_of_int (z : Z) : option float :=
  match round64 (inject_Z z) with
  | Finite q => Some (Finite q)
  | Infinite _ | NaN => None
  end.

(** [x + y] *)
Definition fadd (x y : float) : float :=
  match x, y with
  | Finite a, Finite b => round64 (a + b)
  | Finite _, Infinite s => Infinite s
  | Infinite s, Finite _ => Infinite s
  | Infinite s, Infinite s' => if Bool.eqb s s' then Infinite s else NaN
  | NaN, _ | _, NaN => NaN
  end.

(** [x - y] *)
Definition fsub (x y : float) : float :=
  match x, y with
  | Finite a, Finite b => round64 (a - b)
  | Finite _, Infinite s => Infinite (negb s)
  | Infinite s, Finite _ => Infinite s
  | Infinite s, Infinite s' => if Bool.eqb s s' then NaN else Infinite s
  | NaN, _ | _, NaN => NaN
  end.

(** [x / 2.] *)
Definition fdiv_two (x : float) : float :=
  match x with
  | Finite a => round64 (a / 2)
  | Infinite s => Infinite s
  | NaN => NaN
  end.

(** [x < y]; an [int] is compared to a float by its value, [Finite z]. *)
Definition flt (x y : float) : bool :=
  match x, y with
  | Finite a, Finite b => Qltb a b
  | Finite _, Infinite s => negb s
  | Infinite s, Finite _ => s
  | Infinite s, Infinite s' => s && negb s'
  | NaN, _ | _, NaN => false
  end.

(** [min(x, y)]: [y] if [y < x], and [x] otherwise. *)
Definition fmin (x y : float) : float := if flt y x then y else x.

(** [Segment(x, y)] on floats.  A segment with an endpoint that is not
    finite is not followed further: once it is in the list the run either
    never ends or ends in [int(s[0])] or [int(s[1])] raising, so that no
    list is returned. *)
Definition float_segment (x y : float) : option segment :=
  match x, y with
  | Finite a, Finite b => Some (Segment (PFloat a) (PFloat b))
  | _, _ => None
  end.

(** [abs(seg)] on a segment of floats: the float [seg[1] - seg[0]]. *)
Definition float_abs (seg : segment) : float :=
  fsub (Finite (value seg.2)) (Finite (value seg.1)).

(** *** [omicron_output_segments] *)

(** The inner [while t < e] loop of [omicron_output_segments]. *)
Fixpoint inner_loop (fuel : nat) (fseg : Z) (fend e : float) (t : float)
    (out : SegmentList) : option (float * SegmentList) :=
  if flt t e then
    match fuel with
    | O => None
    | S fuel' =>
        match float_of_int fseg with
        | Some fseg' =>
            match float_segment t (fmin (fadd t fseg') fend) with
            | Some seg =>
                inner_loop fuel' fseg fend e (fadd t fseg') (out ++ [seg])
            | None => None
            end
        | None => None
        end
    end
  else Some (t, out).

(** The outer [while t < fend] loop. *)
Fixpoint outer_loop (fuel : nat) (fdur fseg : Z) (fend : float) (t : float)
    (out : SegmentList) : option SegmentList :=
  if flt t fend then
    match fuel with
    | O => None
    | S fuel' =>
        match float_of_int fdur with
        | Some fdur' =>
            let e := fmin (fadd t fdur') fend in
            match float_segment t e with
            | Some seg =>
                if flt (Finite (inject_Z fseg)) (float_abs seg)
                   && flt (float_abs seg) (Finite (inject_Z fdur))
                then
                  match inner_loop fuel' fseg fend e t out with
                  | Some (_, out') => outer_loop fuel' fdur fseg fend e out'
                  | None => None
                  end
                else outer_loop fuel' fdur fseg fend e (out ++ [seg])
            | None => None
            end
        | None => None
        end
    end
  else Some out.

(** The body of [omicron_output_segments], before decoration; [None] when
    it returns no list. *)
Definition omicron_output_segments_body (fuel : nat)
    (args : Z * Z * Z * Z * Z) : option SegmentList :=
  let '(start, end_, chunk, segment, overlap) := args in
  match float_of_int overlap, float_of_int start, float_of_int end_ with
  | Some overlap', Some start', Some end' =>
      let padding := fdiv_two overlap' in
      let out := [] in
      let fstart := fadd start' padding in
      let fend := fsub end' padding in
      let fdur := (chunk - overlap)%Z in
      let fseg := (segment - overlap)%Z in
      let t := fstart in
      outer_loop fuel fdur fseg fend t out
  | _, _, _ => None
  end.

(** [omicron_output_segments], as the module exports it: decorated with
    [integer_segments]. *)
Definition omicron_output_segments (fuel : nat)
    (start end_ chunk segment overlap : Z) : option SegmentList :=
  integer_segments (omicron_output_segments_body fuel)
    (start, end_, chunk, segment, overlap).

(** The arguments for which the theorems are stated: between -2^50 and
    2^50. *)
Definition small (z : Z) : Prop :=
  (-1125899906842624 <= z <= 1125899906842624)%Z.

(** *** The loops in exact arithmetic

    The same loops on rationals, with no sum rounded: what
    [omicron_output_segments] computes as long as its numbers are small,
    as the facts below show. *)

(** The inner loop, on rationals. *)
Fixpoint exact_inner_loop (fuel : nat) (fseg : Z) (fend e : Q) (t : Q)
    (out : SegmentList) : option (Q * SegmentList) :=
  if Qltb t e then
    match fuel with
    | O => None
    | S fuel' =>
        let seg := Segment (PFloat t) (PFloat (Qmin (t + inject_Z fseg) fend)) in
        exact_inner_loop fuel' fseg fend e (t + inject_Z fseg) (out ++ [seg])
    end
  else Some (t, out).

(** The outer loop, on rationals. *)
Fixpoint exact_outer_loop (fuel : nat) (fdur fseg : Z) (fend : Q) (t : Q)
    (out : SegmentList) : option SegmentList :=
  if Qltb t fend then
    match fuel with
    | O => None
    | S fuel' =>
        let e := Qmin (t + inject_Z fdur) fend in
        let seg := Segment (PFloat t) (PFloat e) in
        if Qltb (inject_Z fseg) (seg_abs seg) && Qltb (seg_abs seg) (inject_Z fdur)
        then
          match exact_inner_loop fuel' fseg fend e t out with
          | Some (_, out') => exact_outer_loop fuel' fdur fseg fend e out'
          | None => None
          end
        else exact_outer_loop fuel' fdur fseg fend e (out ++ [seg])
    end
  else Some out.

(** The body, on rationals. *)
Definition exact_body (fuel : nat)
    (args : Z * Z * Z * Z * Z) : option SegmentList :=
  let '(start, end_, chunk, segment, overlap) := args in
  let padding := inject_Z overlap / 2 in
  let out := [] in
  let fstart := inject_Z start + padding in
  let fend := inject_Z end_ - padding in
  let fdur := (chunk - overlap)%Z in
  let fseg := (segment - overlap)%Z in
  let t := fstart in
  exact_outer_loop fuel fdur fseg fend t out.

(** The body on rationals, decorated with [integer_segments]. *)
Definition exact_output_segments (fuel : nat)
    (start end_ chunk segment overlap : Z) : option SegmentList :=
  integer_segments (exact_body fuel)
    (start, end_, chunk, segment, overlap).

(** The number of unit steps left before a cursor at [t] reaches [e]: a
    bound on the iterations of either loop, whose steps are whole and
    positive. *)
Definition steps_left (e t : Q) : nat := Z.to_nat (Qceiling (e - t)).

(** Fuel that lets both loops run to their end on a job from [start] to
    [end_]. *)
Definition enough_fuel (start end_ : Z) : nat := S (Z.to_nat (end_ - start)).

(** *** Properties of segment lists *)

(** The ends of the span that the files of a job cover, [start + overlap/2]
    and [end - overlap/2]. *)
Definition usable_start (start overlap : Z) : Q :=
  inject_Z start + inject_Z overlap / 2.

Definition usable_end (end_ overlap : Z) : Q :=
  inject_Z end_ - inject_Z overlap / 2.

(** The integer that a column of the two-column format holds. *)
Definition read_int (column : string) : option Z :=
  Z.of_int <$> NilZero.int_of_string column.

(** [x] lies in the half-open interval [[s[0], s[1])]. *)
Definition contains (s : segment) (x : Q) : Prop :=
  value s.1 <= x ∧ x < value s.2.

(** The invariant of [glue.segments.segment]: the endpoints are ordered. *)
Definition well_formed (s : segment) : Prop := value s.1 <= value s.2.

(** The invariant of a time interval of the data model: it is not empty. *)
Definition nonempty (s : segment) : Prop := value s.1 < value s.2.

Definition sorted_by_start (l : SegmentList) : Prop :=
  ∀ (i j : nat) (s1 s2 : segment),
    (i < j)%nat → l !! i = Some s1 → l !! j = Some s2 →
    value s1.1 <= value s2.1.

Definition pairwise_disjoint (l : SegmentList) : Prop :=
  ∀ (i j : nat) (s1 s2 : segment),
    i ≠ j → l !! i = Some s1 → l !! j = Some s2 →
    ∀ x : Q, ¬ (contains s1 x ∧ contains s2 x).

(** The union of the intervals of [l] is exactly [[a, b)]. *)
Definition union_is (l : SegmentList) (a b : Q) : Prop :=
  ∀ x : Q, (∃ s : segment, s ∈ l ∧ contains s x) ↔ a <= x ∧ x < b.

(** [l] runs from [a] to [b] without a gap: each interval starts where the
    one before it ends. *)
Fixpoint chain (a b : Q) (l : SegmentList) : Prop :=
  match l with
  | [] => a == b
  | s :: l' => value s.1 == a ∧ value s.1 <= value s.2 ∧ chain (value s.2) b l'
  end.

(** The same, decided. *)
Fixpoint chainb (a b : Q) (l : SegmentList) : bool :=
  match l with
  | [] => Qeq_bool a b
  | s :: l' =>
      Qeq_bool (value s.1) a && Qle_bool (value s.1) (value s.2)
      && chainb (value s.2) b l'
  end.

(** Two adjacent segments with fractional endpoints, [[1.5, 2.5)] and
    [[2.5, 4.5)]. *)
Definition two_fractional_segments : SegmentList :=
  [(PFloat (3 # 2), PFloat (5 # 2)); (PFloat (5 # 2), PFloat (9 # 2))].

(** [a] is [x] rounded toward zero: the floor of a positive [x], the
    ceiling of a negative one. *)
Definition truncated (x : Q) (a : Z) : Prop :=
  (0 <= x → a = Qfloor x) ∧ (x <= 0 → a = Qceiling x).

(** *** Floats and the rationals they denote *)

(** The float [x] is finite and denotes [q]. *)
Definition denotes (x : float) (q : Q) : Prop :=
  ∃ r : Q, x = Finite r ∧ r == q.

(** [q] is [k] halves. *)
Definition halves (k : Z) (q : Q) : Prop := 2 * q == inject_Z k.

(** Two segments with the same endpoints, as numbers. *)
Definition same_segment (s s' : segment) : Prop :=
  value s.1 == value s'.1 ∧ value s.2 == value s'.2.

(** A run of the inner loop on floats and one on rationals agree: both go
    on for ever, or both end, with cursors and lists that denote the
    same. *)
Definition inner_agree (r : option (float * SegmentList))
    (r' : option (Q * SegmentList)) : Prop :=
  match r, r' with
  | Some (x, l), Some (t, l') => denotes x t ∧ Forall2 same_segment l l'
  | None, None => True
  | _, _ => False
  end.

(** The same for the outer loop. *)
Definition outer_agree (r r' : option SegmentList) : Prop :=
  match r, r' with
  | Some l, Some l' => Forall2 same_segment l l'
  | None, None => True
  | _, _ => False
  end.

(** The float of [binary_normalize], the rounding of the Standard
    Library's [SpecFloat], against which [round64] is checked. *)
Definition of_spec_float (x : spec_float) : float :=
  match x with
  | S754_zero _ => Finite 0
  | S754_infinity s => Infinite s
  | S754_nan => NaN
  | S754_finite s m e =>
      Finite (Qred ((if s then -1 else 1) * inject_Z (Zpos m) * 2 ^ e))
  end.

Definition float_eqb (x y : float) : bool :=
  match x, y with
  | Finite a, Finite b => Qeq_bool a b
  | Infinite s, Infinite s' => Bool.eqb s s'
  | NaN, NaN => true
  | _, _ => false
  end.

(** [round64] and [binary_normalize] give the same float for [m * 2^e]. *)
Definition rounds_as_SpecFloat (me : Z * Z) : bool :=
  float_eqb (of_spec_float (binary_normalize 53 1024 me.1 me.2 false))
            (round64 (inject_Z me.1 * 2 ^ me.2)).

End Segments.

(** ** omicron/condor.py

    The module itself is not among the sources at hand; its tests are.  The
    functions below are modelled from the specification, with the tests of
    [omicron/tests/test_condor.py] as examples of their behaviour. *)

Module Condor.

Local Open Scope string_scope.

(** The failures of the job-management layer. *)
Inductive error : Type :=
| ParseError (message : string)
| NotFoundError (message : string)
| AmbiguousResultError (message : string).

Inductive result (A : Type) : Type :=
| Ok (a : A)
| Raise (e : error).

Arguments Ok {A} a.
Arguments Raise {A} e.

(** *** Strings *)

Definition dquote : ascii := "034"%char.
Definition backslash : ascii := "092"%char.

(** [s] without the prefix [p], if it starts with it. *)
Fixpoint strip_prefix (p s : string) : option string :=
  match p, s with
  | EmptyString, _ => Some s
  | String a p', String b s' => if Ascii.eqb a b then strip_prefix p' s' else None
  | String _ _, EmptyString => None
  end.

(** [s.startswith(p)] *)
Definition starts_with (p s : string) : bool :=
  match strip_prefix p s with
  | Some _ => true
  | None => false
  end.

Definition is_digit (c : ascii) : bool :=
  (48 <=? nat_of_ascii c)%nat && (nat_of_ascii c <=? 57)%nat.

Fixpoint all_digits (s : string) : bool :=
  match s with
  | EmptyString => true
  | String c s' => is_digit c && all_digits s'
  end.

(** [s] starts with a digit. *)
Definition leading_digit (s : string) : bool :=
  match s with
  | EmptyString => false
  | String c _ => is_digit c
  end.

(** The longest run of digits at the head of [s], and what follows it. *)
Fixpoint take_digits (s : string) : string * string :=
  match s with
  | EmptyString => (EmptyString, EmptyString)
  | String c s' =>
      if is_digit c
      then let (digits, rest) := take_digits s' in (String c digits, rest)
      else (EmptyString, s)
  end.

(** The number that a run of digits denotes, after [acc]. *)
Fixpoint int_of_digits (acc : Z) (digits : string) : Z :=
  match digits with
  | EmptyString => acc
  | String c digits' =>
      int_of_digits (10 * acc + Z.of_nat (nat_of_ascii c - 48)) digits'
  end.

(** *** Submission *)

Definition submitted_to_cluster : string := " job(s) submitted to cluster ".

(** Modelled from the spec: [omicron/condor.py] is missing; the match of
    the pattern ["<N> job(s) submitted to cluster <ClusterID>"] at the head
    of [s], with [<N>] and [<ClusterID>] runs of digits. *)
Definition match_here (s : string) : option Z :=
  let (n, rest) := take_digits s in
  match n with
  | EmptyString => None
  | String _ _ =>
      match strip_prefix submitted_to_cluster rest with
      | Some rest' =>
          let (cluster, _) := take_digits rest' in
          match cluster with
          | EmptyString => None
          | String _ _ => Some (int_of_digits 0 cluster)
          end
      | None => None
      end
  end.

(** Modelled from the spec: [omicron/condor.py] is missing; the scan of the
    output for the first place where the pattern matches. *)
Fixpoint scan_cluster_id (out : string) : option Z :=
  match match_here out with
  | Some cluster => Some cluster
  | None =>
      match out with
      | EmptyString => None
      | String _ out' => scan_cluster_id out'
      end
  end.

Section Submit.

(** The path of the submission executable, and what running a command line
    prints on its standard output. *)
Variable executable : string.
Variable check_output : list string → string.
(** The end of the error message, which the specification leaves open. *)
Variable detail : string → string.

(** Modelled from the spec: [omicron/condor.py] is missing; [submit_dag]
    runs the submission executable with the extra arguments followed by the
    DAG path, scans its output for the pattern and returns the cluster
    identifier, or fails with a [ParseError]. *)
Definition submit_dag (dag_path : string) (extra_args : list string) : result Z :=
  let out := check_output (executable :: extra_args ++ [dag_path]) in
  match scan_cluster_id out with
  | Some cluster => Ok cluster
  | None => Raise (ParseError ("Failed to extract DAG cluster ID" +:+ detail out))
  end.

End Submit.

(** What the pattern says: [out] holds [n], the literal text and [cluster]
    one after the other, [n] and [cluster] being non-empty runs of digits. *)
Definition pattern_at (out pre n cluster post : string) : Prop :=
  out = pre +:+ n +:+ submitted_to_cluster +:+ cluster +:+ post
  ∧ n ≠ EmptyString ∧ all_digits n = true
  ∧ cluster ≠ EmptyString ∧ all_digits cluster = true.

(** The same, with [cluster] the whole number: no digit follows it. *)
Definition whole_pattern_at (out pre n cluster post : string) : Prop :=
  pattern_at out pre n cluster post ∧ leading_digit post = false.

Definition has_pattern (out : string) : Prop :=
  ∃ pre n cluster post : string, pattern_at out pre n cluster post.

(** *** Job queries *)

(** The value of a job attribute. *)
Inductive attribute : Type :=
| AInt (z : Z)
| AString (s : string).

#[global] Instance attribute_eq_dec : EqDecision attribute.
Proof. solve_decision. Defined.

(** A job record maps attribute names to values. *)
Abbreviation JobRecord := (gmap string attribute).

(** [job] satisfies every equality filter. *)
Definition satisfies (filters : gmap string attribute) (job : JobRecord) : Prop :=
  map_Forall (λ name v, job !! name = Some v) filters.

#[global] Instance satisfies_dec filters job : Decision (satisfies filters job).
Proof. unfold satisfies. apply _. Defined.

Section Query.

(** The job table of the scheduler, in its order. *)
Variable schedd : list JobRecord.
(** The ends of the error messages, which the specification leaves open. *)
Variable detail : gmap string attribute → string.

(** Modelled from the spec: [omicron/condor.py] is missing; [find_jobs]
    returns every job of the scheduler that satisfies all the filters. *)
Definition find_jobs (filters : gmap string attribute) : list JobRecord :=
  filter (satisfies filters) schedd.

(** Modelled from the spec: [omicron/condor.py] is missing; [find_job]
    requires exactly one match. *)
Definition find_job (filters : gmap string attribute) : result JobRecord :=
  match find_jobs filters with
  | [] => Raise (NotFoundError ("No jobs found" +:+ detail filters))
  | [job] => Ok job
  | _ :: _ :: _ =>
      Raise (AmbiguousResultError ("Multiple jobs found" +:+ detail filters))
  end.

End Query.

(** *** Submission descriptors *)

(** The lines of a text: the pieces between its newlines. *)
Fixpoint split_lines (content : string) : list string :=
  match content with
  | EmptyString => [EmptyString]
  | String c content' =>
      if Ascii.eqb c LF then EmptyString :: split_lines content'
      else
        match split_lines content' with
        | line :: rest => String c line :: rest
        | [] => [String c EmptyString]
        end
  end.

(** The text of a list of lines: the lines with a newline between them. *)
Fixpoint join_lines (lines : list string) : string :=
  match lines with
  | [] => EmptyString
  | [line] => line
  | line :: rest => line +:+ String LF (join_lines rest)
  end.

(** Modelled from the spec: [omicron/condor.py] is missing; a line that
    ends with the continuation marker, a backslash, goes on in the next. *)
Fixpoint continued (line : string) : bool :=
  match line with
  | EmptyString => false
  | String c EmptyString => Ascii.eqb c backslash
  | String _ line' => continued line'
  end.

(** A directive: its physical lines, the first one first. *)
Abbreviation directive := (list string).

(** Modelled from the spec: [omicron/condor.py] is missing; the directives
    of a descriptor are its lines, each with the lines that continue it. *)
Fixpoint directives (lines : list string) : list directive :=
  match lines with
  | [] => []
  | line :: rest =>
      match directives rest with
      | d :: ds => if continued line then (line :: d) :: ds else [line] :: d :: ds
      | [] => [[line]]
      end
  end.

(** Modelled from the spec: [omicron/condor.py] is missing; the directive
    [d] sets [key] when its first line starts with [key = ]. *)
Definition sets (key : string) (d : directive) : bool :=
  match d with
  | line :: _ => starts_with (key +:+ " = ") line
  | [] => false
  end.

(** The start of an [arguments] directive, up to its opening quote. *)
Definition arguments_open : string := "arguments = " +:+ String dquote EmptyString.

(** Modelled from the spec: [omicron/condor.py] is missing; the argument
    override is put, after one space, in front of the current value of an
    [arguments] directive. *)
Definition override_arguments (command : string) (d : directive) : directive :=
  match d with
  | line :: rest =>
      match strip_prefix arguments_open line with
      | Some current => (arguments_open +:+ " " +:+ command +:+ current) :: rest
      | None => d
      end
  | [] => d
  end.

(** What ends a clause of [Requirements] that another one follows, and the
    indentation of a clause under [Requirements = ]. *)
Definition and_continue : string := " && " +:+ String backslash EmptyString.
Definition clause_indent : string := "               ".

(** Modelled from the spec: [omicron/condor.py] is missing; the last clause
    of a [Requirements] directive is ended again with the continuation
    marker and a last line with [HasSingularity] is added; the clauses
    before it stay as they are. *)
Fixpoint require_singularity (d : directive) : directive :=
  match d with
  | [] => []
  | [line] => [line +:+ and_continue; clause_indent +:+ "HasSingularity"]
  | line :: d' => line :: require_singularity d'
  end.

(** Modelled from the spec: [omicron/condor.py] is missing; the descriptor
    with its first [Requirements] directive extended, if it has one. *)
Fixpoint extend_requirements (ds : list directive) : option (list directive) :=
  match ds with
  | [] => None
  | d :: ds' =>
      if sets "Requirements" d then Some (require_singularity d :: ds')
      else cons d <$> extend_requirements ds'
  end.

(** Modelled from the spec: [omicron/condor.py] is missing; with a
    container image, [+SingularityImage = <path>] becomes the first
    directive and [Requirements] gets a [HasSingularity] clause, or is
    created with it. *)
Definition add_singularity (image : string) (ds : list directive) : list directive :=
  ["+SingularityImage = " +:+ image] ::
  match extend_requirements ds with
  | Some ds' => ds'
  | None => ["Requirements = HasSingularity"] :: ds
  end.

(** Modelled from the spec: [omicron/condor.py] is missing; the patch of a
    descriptor, given the two optional overrides. *)
Definition patch_directives (command image : option string)
    (ds : list directive) : list directive :=
  let ds1 :=
    match command with
    | Some c => map (override_arguments c) ds
    | None => ds
    end in
  match image with
  | Some path => add_singularity path ds1
  | None => ds1
  end.

(** Modelled from the spec: [omicron/condor.py] is missing; the content of
    the patched descriptor: the lines of its directives. *)
Definition patch_descriptor (command image : option string)
    (content : string) : string :=
  join_lines (concat (patch_directives command image
                        (directives (split_lines content)))).

(** Modelled from the spec: [omicron/condor.py] is missing;
    [write_sub_file] reads the generated descriptor and writes the patched
    one back as the whole content of the same file. *)
Definition write_sub_file (command image : option string) (subfile : string)
    (fs : gmap string string) : option (gmap string string) :=
  match fs !! subfile with
  | Some content => Some (<[subfile := patch_descriptor command image content]> fs)
  | None => None
  end.

(** A directive that the patch does not aim at. *)
Definition untargeted (d : directive) : bool :=
  negb (sets "arguments" d || sets "Requirements" d || sets "+SingularityImage" d).

(** A string that holds no newline. *)
Fixpoint single_line (s : string) : bool :=
  match s with
  | EmptyString => true
  | String c s' => negb (Ascii.eqb c LF) && single_line s'
  end.

(** Lines that hold no newline. *)
Abbreviation single_lines :=
  (Forall (λ line : string, single_line line = true)).

(** An override that stays on the line it is put in: it holds no newline
    and does not end with the continuation marker. *)
Definition plain (override : option string) : bool :=
  match override with
  | Some s => single_line s && negb (continued s)
  | None => true
  end.

(** The shape of a directive that [directives] builds: every line but the
    last ends with the continuation marker, and the last one does not. *)
Fixpoint closed (d : directive) : bool :=
  match d with
  | [] => false
  | [line] => negb (continued line)
  | line :: d' => continued line && closed d'
  end.

(** The shape of a directive that runs into the end of the text: every
    line ends with the continuation marker. *)
Fixpoint unended (d : directive) : bool :=
  match d with
  | [] => false
  | [line] => continued line
  | line :: d' => continued line && unended d'
  end.

(** The shape of what [directives] returns: closed directives, the last of
    which may run into the end of the text. *)
Fixpoint grouped (ds : list directive) : bool :=
  match ds with
  | [] => true
  | [d] => closed d || unended d
  | d :: ds' => closed d && grouped ds'
  end.

(** *** The fixtures of [test_condor.py] *)

(** The job table of [test_find_jobs] and [test_find_job]. *)
Definition test_schedd : list JobRecord :=
  [{["ClusterId" := AInt 1]}; {["ClusterId" := AInt 2]}].

Definition quoted (s : string) : string :=
  String dquote EmptyString +:+ s +:+ String dquote EmptyString.

Definition sub_no_reqs : string :=
  join_lines
    [ EmptyString;
      "universe = vanilla";
      "executable = /path/to/omicron";
      "arguments = " +:+ quoted "some command";
      EmptyString ].

Definition sub_one_req : string :=
  sub_no_reqs +:+
  join_lines
    [ EmptyString;
      "Requirements = TARGET.UidDomain == " +:+ quoted "cs.wisc.edu";
      EmptyString ].

Definition sub_multi_reqs : string :=
  sub_no_reqs +:+
  join_lines
    [ EmptyString;
      "Requirements = TARGET.UidDomain == " +:+ quoted "cs.wisc.edu"
        +:+ and_continue;
      clause_indent +:+ "TARGET.FileSystemDomain == " +:+ quoted "cs.wisc.edu";
      EmptyString ].

End Condor.

(** ** omicron/segments.py: reading a tree, and the text of a file *)

Module Tree.

Import Segments.

(** A ['segments'] [ROOT.Tree], as [segmentlist_from_tree] uses it: its
    entries, each a start and an end, and the attributes [tree.start] and
    [tree.end], which hold the entry read last. *)
Record Tree : Type := {
  entries : list (num * num);
  start : num;
  end_ : num
}.

(** [tree.GetEntries()] *)
Definition GetEntries (tree : Tree) : nat := length (entries tree).

(** [tree.GetEntry(i)] reads the entry [i] into the attributes; out of
    range it reads nothing. *)
Definition GetEntry (i : nat) (tree : Tree) : Tree :=
  match entries tree !! i with
  | Some entry => {| entries := entries tree; start := entry.1; end_ := entry.2 |}
  | None => tree
  end.

(** The loop [for i in range(...)] of [segmentlist_from_tree]. *)
Fixpoint read_entries (range : list nat) (tree : Tree) (segs : SegmentList)
  : Tree * SegmentList :=
  match range with
  | [] => (tree, segs)
  | i :: range' =>
      let tree := GetEntry i tree in
      read_entries range' tree (segs ++ [Segment (start tree) (end_ tree)])
  end.

(** [segmentlist_from_tree(tree, coalesce=False)] *)
Definition segmentlist_from_tree (tree : Tree) (coalesce : bool) : SegmentList :=
  let segs := [] in
  (read_entries (seq 0 (GetEntries tree)) tree segs).2.

End Tree.

Module SegmentFile.

Import Segments.

(** The character [c] occurs in [s]. *)
Fixpoint occurs (c : ascii) (s : string) : bool :=
  match s with
  | EmptyString => false
  | String a s' => Ascii.eqb a c || occurs c s'
  end.

(** The two integers that the columns of the line of a segment hold. *)
Definition int_endpoints (seg : segment) : Z * Z := (int seg.1, int seg.2).

(** The segment has integer endpoints. *)
Definition integral (seg : segment) : Prop :=
  ∃ a b : Z, seg = (PInt a, PInt b).

End SegmentFile.

(** * Facts *)

Module StringFacts.

Lemma append_nil_l (s : string) : EmptyString +:+ s = s.
Proof. reflexivity. Qed.

Lemma append_cons (c : ascii) (s1 s2 : string) :
  String c s1 +:+ s2 = String c (s1 +:+ s2).
Proof. reflexivity. Qed.

Ltac simpl_append := rewrite ?append_cons, ?append_nil_l.

Lemma append_assoc (s1 s2 s3 : string) :
  (s1 +:+ s2) +:+ s3 = s1 +:+ (s2 +:+ s3).
Proof. induction s1 as [| c s1 IH]; simpl_append; congruence. Qed.

Lemma append_empty_r (s : string) : s +:+ EmptyString = s.
Proof. induction s as [| c s IH]; simpl_append; congruence. Qed.

End StringFacts.

Module SegmentsFacts.
Import Segments StringFacts.
Local Open Scope Q_scope.

Lemma Qltb_lt (x y : Q) : Qltb x y = true ↔ x < y.
Proof.
  unfold Qltb. rewrite negb_true_iff, <- not_true_iff_false, Qle_bool_iff.
  split; [apply Qnot_le_lt | apply Qlt_not_le].
Qed.

Lemma Qltb_ge (x y : Q) : Qltb x y = false ↔ y <= x.
Proof.
  unfold Qltb. rewrite negb_false_iff, Qle_bool_iff. reflexivity.
Qed.

Lemma Segment_ordered (a b : num) :
  value a <= value b → Segment a b = (a, b).
Proof.
  intros H. unfold Segment. apply Qle_bool_iff in H. rewrite H. reflexivity.
Qed.

(** *** Truncation toward zero *)

Lemma trunc_inject_Z (z : Z) : trunc (inject_Z z) = z.
Proof. unfold trunc. simpl. apply Z.quot_1_r. Qed.

Lemma trunc_nonneg (q : Q) : 0 <= q → trunc q = Qfloor q.
Proof.
  destruct q as [n d]. unfold Qle, trunc, Qfloor. simpl. intros H.
  apply Z.quot_div_nonneg; lia.
Qed.

Lemma trunc_nonpos (q : Q) : q <= 0 → trunc q = Qceiling q.
Proof.
  destruct q as [n d]. unfold Qle, trunc, Qceiling, Qfloor. simpl. intros H.
  rewrite <- (Z.opp_involutive n) at 1.
  rewrite Z.quot_opp_l by lia.
  rewrite Z.quot_div_nonneg by lia. reflexivity.
Qed.

Lemma trunc_mono (x y : Q) : x <= y → (trunc x <= trunc y)%Z.
Proof.
  intros H.
  destruct (Qlt_le_dec x 0) as [Hx | Hx], (Qlt_le_dec y 0) as [Hy | Hy].
  - rewrite !trunc_nonpos by (apply Qlt_le_weak; assumption).
    apply Qceiling_resp_le, H.
  - rewrite (trunc_nonpos x) by (apply Qlt_le_weak; assumption).
    rewrite (trunc_nonneg y) by assumption.
    transitivity 0%Z.
    + rewrite <- (Qceiling_Z 0). apply Qceiling_resp_le, Qlt_le_weak, Hx.
    + rewrite <- (Qfloor_Z 0). apply Qfloor_resp_le, Hy.
  - exfalso. lra.
  - rewrite !trunc_nonneg by lra. apply Qfloor_resp_le, H.
Qed.

Lemma trunc_comp (x y : Q) : x == y → trunc x = trunc y.
Proof.
  intros H. apply Z.le_antisymm; apply trunc_mono; rewrite H; apply Qle_refl.
Qed.

Lemma int_value_trunc (a : num) : int a = trunc (value a).
Proof. destruct a; simpl; [symmetry; apply trunc_inject_Z | reflexivity]. Qed.

Lemma int_mono (a b : num) : value a <= value b → (int a <= int b)%Z.
Proof. intros H. rewrite !int_value_trunc. apply trunc_mono, H. Qed.

Lemma int_segment_eq (s : segment) :
  well_formed s → int_segment s = (PInt (int s.1), PInt (int s.2)).
Proof.
  intros H. unfold int_segment. apply Segment_ordered. simpl.
  rewrite <- Zle_Qle. apply int_mono, H.
Qed.

(** *** Chains of intervals *)

Lemma chain_start_eq (a a' b : Q) (l : SegmentList) :
  a == a' → chain a b l → chain a' b l.
Proof.
  destruct l as [| s l]; simpl.
  - intros Ha H. rewrite <- Ha. exact H.
  - intros Ha (H1 & H2 & H3). repeat split; try assumption.
    rewrite H1. exact Ha.
Qed.

Lemma chain_end_eq (a b b' : Q) (l : SegmentList) :
  b == b' → chain a b l → chain a b' l.
Proof.
  revert a. induction l as [| s l IH]; simpl; intros a Hb.
  - intros H. rewrite H. exact Hb.
  - intros (H1 & H2 & H3). repeat split; try assumption. apply IH; assumption.
Qed.

Lemma chain_le (a b : Q) (l : SegmentList) : chain a b l → a <= b.
Proof.
  revert a. induction l as [| s l IH]; simpl; intros a.
  - intros H. rewrite H. apply Qle_refl.
  - intros (H1 & H2 & H3). specialize (IH _ H3). lra.
Qed.

Lemma chain_app (a m b : Q) (l1 l2 : SegmentList) :
  chain a m l1 → chain m b l2 → chain a b (l1 ++ l2).
Proof.
  revert a. induction l1 as [| s l1 IH]; simpl; intros a.
  - intros Ha H. apply chain_start_eq with m; [symmetry; exact Ha | exact H].
  - intros (H1 & H2 & H3) H. repeat split; try assumption. apply IH; assumption.
Qed.

Lemma chain_bounds (a b : Q) (l : SegmentList) (s : segment) :
  chain a b l → s ∈ l → a <= value s.1 ∧ well_formed s ∧ value s.2 <= b.
Proof.
  revert a. induction l as [| s0 l IH]; simpl; intros a Hc Hin.
  - apply elem_of_nil in Hin. contradiction.
  - destruct Hc as (H1 & H2 & H3). pose proof (chain_le _ _ _ H3) as Hle.
    apply elem_of_cons in Hin as [-> | Hin].
    + unfold well_formed. repeat split; lra.
    + destruct (IH _ H3 Hin) as (K1 & K2 & K3). repeat split; try assumption. lra.
Qed.

Lemma chain_lookup_le (a b : Q) (l : SegmentList) (i j : nat) (s1 s2 : segment) :
  chain a b l → (i < j)%nat → l !! i = Some s1 → l !! j = Some s2 →
  value s1.2 <= value s2.1.
Proof.
  revert a i j. induction l as [| s l IH]; intros a i j Hc Hij Hi Hj.
  - discriminate.
  - destruct Hc as (H1 & H2 & H3).
    destruct j as [| j]; [lia |]. simpl in Hj.
    destruct i as [| i]; simpl in Hi.
    + injection Hi as <-.
      apply list_elem_of_lookup_2 in Hj.
      apply (chain_bounds _ _ _ _ H3 Hj).
    + apply (IH _ i j H3); [lia | assumption | assumption].
Qed.

Lemma chain_well_formed (a b : Q) (l : SegmentList) :
  chain a b l → Forall well_formed l.
Proof.
  intros Hc. apply Forall_forall. intros s Hs.
  apply (chain_bounds _ _ _ _ Hc Hs).
Qed.

Lemma chain_sorted (a b : Q) (l : SegmentList) :
  chain a b l → sorted_by_start l.
Proof.
  intros Hc i j s1 s2 Hij Hi Hj.
  pose proof (chain_lookup_le _ _ _ _ _ _ _ Hc Hij Hi Hj) as H.
  apply list_elem_of_lookup_2 in Hi.
  destruct (chain_bounds _ _ _ _ Hc Hi) as (_ & Hw & _).
  unfold well_formed in Hw. lra.
Qed.

Lemma chain_disjoint (a b : Q) (l : SegmentList) :
  chain a b l → pairwise_disjoint l.
Proof.
  intros Hc i j s1 s2 Hij Hi Hj x [[A1 A2] [B1 B2]].
  destruct (Nat.lt_total i j) as [Hlt | [Heq | Hlt]]; [| contradiction |].
  - pose proof (chain_lookup_le _ _ _ _ _ _ _ Hc Hlt Hi Hj). lra.
  - pose proof (chain_lookup_le _ _ _ _ _ _ _ Hc Hlt Hj Hi). lra.
Qed.

Lemma chain_union (a b : Q) (l : SegmentList) :
  chain a b l → union_is l a b.
Proof.
  revert a. induction l as [| s l IH]; intros a Hc x.
  - simpl in Hc. split.
    + intros (s & Hs & _). apply elem_of_nil in Hs. contradiction.
    + intros [H1 H2]. exfalso. lra.
  - destruct Hc as (H1 & H2 & H3).
    pose proof (chain_le _ _ _ H3) as Hle.
    specialize (IH _ H3 x). split.
    + intros (s' & Hs & [C1 C2]). apply elem_of_cons in Hs as [-> | Hs].
      * split; lra.
      * assert (value s.2 <= x ∧ x < b) as [? ?]
          by (apply IH; exists s'; split; [assumption | split; assumption]).
        split; lra.
    + intros [Ha Hb]. destruct (Qlt_le_dec x (value s.2)) as [Hx | Hx].
      * exists s. split; [apply elem_of_cons; left; reflexivity |].
        split; lra.
      * destruct IH as [_ IH]. destruct (IH (conj Hx Hb)) as (s' & Hs & Hc').
        exists s'. split; [apply elem_of_cons; right; exact Hs | exact Hc'].
Qed.

Lemma chainb_chain (a b : Q) (l : SegmentList) :
  chainb a b l = true ↔ chain a b l.
Proof.
  revert a. induction l as [| s l IH]; simpl; intros a.
  - apply Qeq_bool_iff.
  - rewrite !andb_true_iff, Qeq_bool_iff, Qle_bool_iff, IH. tauto.
Qed.

(** Truncating every endpoint of a chain gives a chain between the truncated
    ends. *)
Lemma chain_int (a b : Q) (l : SegmentList) :
  chain a b l →
  chain (inject_Z (trunc a)) (inject_Z (trunc b)) (map int_segment l).
Proof.
  revert a. induction l as [| s l IH]; simpl; intros a.
  - intros H. rewrite (trunc_comp a b H). reflexivity.
  - intros (H1 & H2 & H3).
    rewrite int_segment_eq by exact H2. simpl.
    split; [| split].
    + rewrite (int_value_trunc s.1). rewrite (trunc_comp _ _ H1).
      reflexivity.
    + rewrite <- Zle_Qle. apply int_mono, H2.
    + rewrite (int_value_trunc s.2). apply IH, H3.
Qed.

(** *** The loops in exact arithmetic *)

(** More fuel does not change a result. *)
Lemma exact_inner_loop_fuel_mono (fseg : Z) (fend e : Q) (fuel fuel' : nat) :
  (fuel <= fuel')%nat →
  ∀ (t : Q) (out : SegmentList) (r : Q * SegmentList),
    exact_inner_loop fuel fseg fend e t out = Some r →
    exact_inner_loop fuel' fseg fend e t out = Some r.
Proof.
  revert fuel'. induction fuel as [| k IH]; intros fuel' Hle t out r.
  - destruct fuel'; simpl; destruct (Qltb t e); congruence.
  - destruct fuel' as [| k']; [lia |]. simpl.
    destruct (Qltb t e); [| congruence]. apply IH. lia.
Qed.

Lemma exact_outer_loop_fuel_mono (fdur fseg : Z) (fend : Q) (fuel fuel' : nat) :
  (fuel <= fuel')%nat →
  ∀ (t : Q) (out r : SegmentList),
    exact_outer_loop fuel fdur fseg fend t out = Some r →
    exact_outer_loop fuel' fdur fseg fend t out = Some r.
Proof.
  revert fuel'. induction fuel as [| k IH]; intros fuel' Hle t out r.
  - destruct fuel'; simpl; destruct (Qltb t fend); congruence.
  - destruct fuel' as [| k']; [lia |]. simpl.
    destruct (Qltb t fend); [| congruence].
    destruct (_ && _).
    + destruct (exact_inner_loop k _ _ _ _ _) as [[t' out'] |] eqn:Hin; [| congruence].
      rewrite (exact_inner_loop_fuel_mono _ _ _ k k' ltac:(lia) _ _ _ Hin).
      apply IH. lia.
    + apply IH. lia.
Qed.

(** Once the cursor has reached the end, the outer loop is over, whatever
    the fuel. *)
Lemma exact_outer_loop_done (fuel : nat) (fdur fseg : Z) (fend t : Q)
    (out : SegmentList) :
  fend <= t → exact_outer_loop fuel fdur fseg fend t out = Some out.
Proof.
  intros H. apply Qltb_ge in H. destruct fuel; simpl; rewrite H; reflexivity.
Qed.

Lemma steps_left_pos (e t : Q) : t < e → (0 < steps_left e t)%nat.
Proof.
  intros H. unfold steps_left.
  pose proof (Qle_ceiling (e - t)) as Hc.
  assert (0 < inject_Z (Qceiling (e - t))) as Hp by lra.
  change 0 with (inject_Z 0) in Hp. rewrite <- Zlt_Qlt in Hp. lia.
Qed.

(** A step of at least one unit uses up one of them. *)
Lemma steps_left_step (e t t' : Q) :
  t < e → t + 1 <= t' → (steps_left e t' < steps_left e t)%nat.
Proof.
  intros H Hstep. pose proof (steps_left_pos _ _ H) as Hpos.
  unfold steps_left in *.
  assert (Qceiling (e - t') <= Qceiling (e - t) - 1)%Z as Hle.
  { rewrite <- (Qceiling_Z (Qceiling (e - t) - 1)).
    apply Qceiling_resp_le.
    pose proof (Qle_ceiling (e - t)) as Hc.
    unfold Z.sub. rewrite inject_Z_plus, inject_Z_opp.
    change (inject_Z 1) with 1. lra. }
  lia.
Qed.

Lemma steps_left_le (e e' t : Q) :
  e <= e' → (steps_left e t <= steps_left e' t)%nat.
Proof.
  intros H. unfold steps_left.
  assert (Qceiling (e - t) <= Qceiling (e' - t))%Z
    by (apply Qceiling_resp_le; lra).
  lia.
Qed.

Lemma Qmin_below (x y : Q) : x < y → Qmin x y == x.
Proof. intros H. apply Q.min_l. lra. Qed.

Lemma Qmin_above (x y : Q) : y <= x → Qmin x y == y.
Proof. intros H. apply Q.min_r. exact H. Qed.

(** The inner loop, entered with [e] at [fend], cuts [[t, e)] into pieces of
    length [fseg], the last one clipped, and ends within [steps_left e t]
    iterations. *)
Lemma exact_inner_loop_spec (fseg : Z) (fend e : Q) :
  (1 <= fseg)%Z → e == fend →
  ∀ (fuel : nat) (t : Q),
    (steps_left e t <= fuel)%nat →
    ∃ (t' : Q) (l : SegmentList),
      (∀ out, exact_inner_loop fuel fseg fend e t out = Some (t', out ++ l))
      ∧ Forall nonempty l
      ∧ (t < e → chain t e l) ∧ (e <= t → l = []).
Proof.
  intros Hfseg He.
  assert (1 <= inject_Z fseg) as Hq
    by (change 1 with (inject_Z 1); rewrite <- Zle_Qle; exact Hfseg).
  assert (∀ fuel t, e <= t →
            ∃ (t' : Q) (l : SegmentList),
              (∀ out, exact_inner_loop fuel fseg fend e t out = Some (t', out ++ l))
              ∧ Forall nonempty l
              ∧ (t < e → chain t e l) ∧ (e <= t → l = [])) as Hover.
  { intros fuel t Hdone. exists t, [].
    split; [| split; [constructor | split; [| reflexivity]]].
    - intros out. apply Qltb_ge in Hdone.
      destruct fuel; simpl; rewrite Hdone, app_nil_r; reflexivity.
    - intros Hlt. exfalso. lra. }
  induction fuel as [| k IH]; intros t Hfuel.
  - apply Hover.
    destruct (Qlt_le_dec t e) as [Hlt | Hge]; [| exact Hge].
    pose proof (steps_left_pos _ _ Hlt). lia.
  - destruct (Qlt_le_dec t e) as [Hlt | Hge]; [| apply Hover, Hge].
    set (t1 := t + inject_Z fseg).
    assert (steps_left e t1 <= k)%nat as Hk.
    { assert (steps_left e t1 < steps_left e t)%nat
        by (apply steps_left_step; [exact Hlt | unfold t1; lra]).
      lia. }
    assert (t < Qmin t1 fend) as Hmin.
    { destruct (Q.min_spec t1 fend) as [[_ ->] | [_ ->]]; unfold t1; lra. }
    destruct (IH t1 Hk) as (t' & l & Hrun & Hne & Hc & Hnil).
    exists t', ((PFloat t, PFloat (Qmin t1 fend)) :: l).
    split; [| split; [| split]].
    + intros out. cbn [exact_inner_loop]. apply Qltb_lt in Hlt as Hb. rewrite Hb.
      fold t1. rewrite Segment_ordered by (simpl; lra).
      rewrite Hrun, <- app_assoc. reflexivity.
    + constructor; [exact Hmin | exact Hne].
    + intros _. simpl. split; [reflexivity | split; [lra |]].
      destruct (Qlt_le_dec t1 e) as [H1 | H1].
      * apply chain_start_eq with t1; [| apply Hc, H1].
        symmetry. apply Qmin_below. lra.
      * rewrite (Hnil H1). simpl. rewrite Qmin_above by lra. lra.
    + intros Hcontra. exfalso. lra.
Qed.

(** The outer loop tiles [[t, fend)] and ends, given one unit of fuel more
    than [steps_left fend t]. *)
Lemma exact_outer_loop_spec (fdur fseg : Z) (fend : Q) :
  (1 <= fseg)%Z → (1 <= fdur)%Z →
  ∀ (fuel : nat) (t : Q),
    (steps_left fend t < fuel)%nat →
    ∃ l : SegmentList,
      (∀ out, exact_outer_loop fuel fdur fseg fend t out = Some (out ++ l))
      ∧ Forall nonempty l
      ∧ (t < fend → chain t fend l) ∧ (fend <= t → l = []).
Proof.
  intros Hfseg Hfdur.
  assert (1 <= inject_Z fdur) as Hq
    by (change 1 with (inject_Z 1); rewrite <- Zle_Qle; exact Hfdur).
  induction fuel as [| k IH]; intros t Hfuel; [lia |].
  destruct (Qlt_le_dec t fend) as [Hlt | Hge].
  - set (e := Qmin (t + inject_Z fdur) fend).
    assert (t < e) as Hte.
    { unfold e.
      destruct (Q.min_spec (t + inject_Z fdur) fend) as [[_ ->] | [_ ->]]; lra. }
    assert (e <= fend) as Hefend by apply Q.le_min_r.
    (* what the rest of the walk, from [e] on, appends *)
    assert (∃ l' : SegmentList,
               (∀ out', exact_outer_loop k fdur fseg fend e out' = Some (out' ++ l'))
               ∧ Forall nonempty l' ∧ chain e fend l') as (l' & Hrest & Hne' & Hc').
    { destruct (Qlt_le_dec e fend) as [Hlt' | Hge'].
      - assert (e == t + inject_Z fdur) as Heq.
        { unfold e.
          destruct (Q.min_spec (t + inject_Z fdur) fend) as [[_ H] | [H1 H2]];
            [exact H |].
          unfold e in Hlt'. rewrite H2 in Hlt'. exfalso. lra. }
        assert (steps_left fend e < k)%nat as Hk.
        { assert (steps_left fend e < steps_left fend t)%nat
            by (apply steps_left_step; [exact Hlt | lra]).
          lia. }
        destruct (IH e Hk) as (l' & Hrun & Hne' & Hc' & _).
        exists l'. split; [exact Hrun | split; [exact Hne' | apply Hc', Hlt']].
      - exists []. split; [| split; [constructor | simpl; lra]].
        intros out'. rewrite app_nil_r. apply exact_outer_loop_done, Hge'. }
    destruct (Qltb (inject_Z fseg) (e - t) && Qltb (e - t) (inject_Z fdur))
      eqn:Hcond.
    + (* shorter than a chunk, longer than a segment: subdivide *)
      apply andb_true_iff in Hcond as [Hc1 Hc2].
      apply Qltb_lt in Hc1, Hc2.
      assert (e == fend) as Heq.
      { unfold e in *.
        destruct (Q.min_spec (t + inject_Z fdur) fend) as [[_ H] | [_ H]];
          [| exact H].
        rewrite H in Hc2. exfalso. lra. }
      assert (steps_left e t <= k)%nat as Hk.
      { pose proof (steps_left_le e fend t Hefend). lia. }
      destruct (exact_inner_loop_spec fseg fend e Hfseg Heq k t Hk)
        as (t' & l1 & Hin & Hne1 & Hc1' & _).
      exists (l1 ++ l'). split; [| split; [| split]].
      * intros out. cbn [exact_outer_loop]. apply Qltb_lt in Hlt as Hb. rewrite Hb.
        fold e. rewrite Segment_ordered by (simpl; lra).
        unfold seg_abs. cbn [fst snd value].
        apply Qltb_lt in Hc1 as ->. apply Qltb_lt in Hc2 as ->. cbn [andb].
        rewrite Hin, Hrest, <- app_assoc. reflexivity.
      * apply Forall_app. split; assumption.
      * intros _. apply chain_app with e; [apply Hc1', Hte | exact Hc'].
      * intros Hcontra. exfalso. lra.
    + exists ((PFloat t, PFloat e) :: l'). split; [| split; [| split]].
      * intros out. cbn [exact_outer_loop]. apply Qltb_lt in Hlt as Hb. rewrite Hb.
        fold e. rewrite Segment_ordered by (simpl; lra).
        unfold seg_abs. cbn [fst snd value]. rewrite Hcond.
        rewrite Hrest, <- app_assoc. reflexivity.
      * constructor; [exact Hte | exact Hne'].
      * intros _. simpl. split; [reflexivity | split; [lra | exact Hc']].
      * intros Hcontra. exfalso. lra.
  - exists []. split; [| split; [constructor | split; [| reflexivity]]].
    + intros out. rewrite app_nil_r. apply exact_outer_loop_done, Hge.
    + intros Hlt. exfalso. lra.
Qed.

(** *** The span of a job *)

Lemma span_length (start end_ overlap : Z) :
  usable_end end_ overlap - usable_start start overlap
  == inject_Z (end_ - start - overlap).
Proof.
  unfold usable_end, usable_start, Z.sub.
  rewrite !inject_Z_plus, !inject_Z_opp. field.
Qed.

Lemma span_nonempty (start end_ overlap : Z) :
  (overlap < end_ - start)%Z ↔ usable_start start overlap < usable_end end_ overlap.
Proof.
  pose proof (span_length start end_ overlap) as H.
  split; intros K.
  - assert (inject_Z 0 < inject_Z (end_ - start - overlap))
      by (rewrite <- Zlt_Qlt; lia).
    change (inject_Z 0) with 0 in *. lra.
  - assert (inject_Z 0 < inject_Z (end_ - start - overlap)) as K'
      by (change (inject_Z 0) with 0; lra).
    rewrite <- Zlt_Qlt in K'. lia.
Qed.

(** The undecorated body walks the whole span: what it returns, given
    enough fuel, is a gapless chain of non-empty intervals from
    [usable_start] to [usable_end], and nothing when the span is empty. *)
Lemma exact_body_tiles (start end_ chunk segment overlap : Z) :
  (overlap < chunk)%Z → (overlap < segment)%Z → (0 <= overlap)%Z →
  ∃ l : SegmentList,
    (∀ fuel, (enough_fuel start end_ <= fuel)%nat →
       exact_body fuel (start, end_, chunk, segment, overlap)
       = Some l)
    ∧ Forall nonempty l
    ∧ ((overlap < end_ - start)%Z →
       chain (usable_start start overlap) (usable_end end_ overlap) l)
    ∧ ((end_ - start <= overlap)%Z → l = []).
Proof.
  intros Hchunk Hseg Hov.
  set (fuel0 := enough_fuel start end_).
  assert (steps_left (usable_end end_ overlap) (usable_start start overlap)
          < fuel0)%nat as Hfuel.
  { unfold steps_left, fuel0, enough_fuel.
    rewrite (Qceiling_comp _ _ (span_length start end_ overlap)), Qceiling_Z.
    lia. }
  destruct (exact_outer_loop_spec (chunk - overlap) (segment - overlap)
              (usable_end end_ overlap) ltac:(lia) ltac:(lia) fuel0
              (usable_start start overlap) Hfuel)
    as (l & Hrun & Hne & Hc & Hnil).
  exists l. split; [| split; [exact Hne | split]].
  - intros fuel Hle. unfold exact_body.
    apply (exact_outer_loop_fuel_mono _ _ _ fuel0 fuel Hle). apply (Hrun []).
  - intros H. apply Hc, span_nonempty, H.
  - intros H. apply Hnil.
    destruct (Qlt_le_dec (usable_start start overlap) (usable_end end_ overlap))
      as [K | K]; [| exact K].
    apply span_nonempty in K. lia.
Qed.

Lemma union_is_comp (l : SegmentList) (a a' b b' : Q) :
  a == a' → b == b' → union_is l a b → union_is l a' b'.
Proof.
  intros Ha Hb H x. rewrite (H x), Ha, Hb. reflexivity.
Qed.

Lemma half_of_even (overlap : Z) :
  Z.even overlap = true → inject_Z overlap / 2 == inject_Z (overlap / 2).
Proof.
  intros H. apply Z.even_spec in H as [k ->].
  rewrite Z.mul_comm, Z.div_mul by lia.
  rewrite inject_Z_mult. change (inject_Z 2) with 2. field.
Qed.

(** With an even overlap the ends of the span are whole, and truncation
    leaves them alone. *)
Lemma usable_start_even (start overlap : Z) :
  Z.even overlap = true →
  inject_Z (trunc (usable_start start overlap)) == usable_start start overlap.
Proof.
  intros H. unfold usable_start.
  assert (inject_Z start + inject_Z overlap / 2
          == inject_Z (start + overlap / 2)) as Heq
    by (rewrite inject_Z_plus, (half_of_even _ H); reflexivity).
  rewrite (trunc_comp _ _ Heq), trunc_inject_Z. symmetry. exact Heq.
Qed.

Lemma usable_end_even (end_ overlap : Z) :
  Z.even overlap = true →
  inject_Z (trunc (usable_end end_ overlap)) == usable_end end_ overlap.
Proof.
  intros H. unfold usable_end.
  assert (inject_Z end_ - inject_Z overlap / 2
          == inject_Z (end_ - overlap / 2)) as Heq.
  { unfold Z.sub. rewrite inject_Z_plus, inject_Z_opp, (half_of_even _ H).
    reflexivity. }
  rewrite (trunc_comp _ _ Heq), trunc_inject_Z. symmetry. exact Heq.
Qed.

(** *** binary64: where no rounding happens *)

(** [round64] against the rounding of [SpecFloat], on numbers around
    2^53 and 2^54, halfway cases, subnormal numbers and overflows. *)
Example round64_as_SpecFloat :
  forallb rounds_as_SpecFloat
    [ (1, 0); (3, -1); (7, -3); (0, 5);
      (2 ^ 53 + 1, 0); (2 ^ 53 + 2, 0); (2 ^ 53 + 3, 0); (- (2 ^ 53 + 1), 0);
      (2 ^ 54 + 1, 0); (2 ^ 54 + 2, 0); (2 ^ 54 + 3, 0); (2 ^ 54 + 6, 0);
      (- (2 ^ 54 + 6), 0); (2 ^ 52 + 1, -1); (2 ^ 53 + 1, -1); (2 ^ 53 + 3, -1);
      (2 ^ 60 + 12345678901, -7); (123456789123456789123456789, -40);
      (2 ^ 107 + 2 ^ 54, 0); (2 ^ 107 + 2 ^ 54 + 1, 0);
      (2 ^ 107 + 2 ^ 54 - 1, 0); (2 ^ 107 + 3 * 2 ^ 54, 0);
      (1, -1074); (1, -1075); (3, -1075); (3, -1076); (5, -1076);
      (2 ^ 53 - 1, -1074); (2 ^ 53 + 1, -1075); (2 ^ 54 - 1, -1075);
      (2 ^ 53 - 1, 971); (2 ^ 54 - 1, 970); (2 ^ 54 - 2, 970);
      (2 ^ 54 - 3, 970); (1, 1023); (1, 1024); (-1, 1024); (10 ^ 400, 0) ]%Z
  = true.
Proof. vm_compute. reflexivity. Qed.

Lemma two_pow_52 : 2 ^ 52 == inject_Z 4503599627370496.
Proof. vm_compute. reflexivity. Qed.

Lemma ilog2_bound (q : Q) :
  Qabs q < 2 ^ 52 → ¬ q == 0 → (ilog2 q <= 51)%Z.
Proof.
  intros Hq Hnz. unfold ilog2.
  set (g := (Z.log2 (Z.abs (Qnum q)) - Z.log2 (Z.pos (Qden q)))%Z).
  destruct (Qle_bool (2 ^ g) (Qabs q)) eqn:Hg.
  - apply Qle_bool_iff in Hg.
    assert (2 ^ g < 2 ^ 52) as Hlt by (eapply Qle_lt_trans; eassumption).
    apply Qpower_lt_compat_l_inv in Hlt; [lia | reflexivity].
  - destruct q as [n d]. unfold g. cbn [Qnum Qden].
    rewrite <- Zabs_Qabs, two_pow_52 in Hq.
    unfold Qlt, inject_Z in Hq. cbn [Qnum Qden] in Hq.
    assert (n ≠ 0%Z) as Hn.
    { intros ->. apply Hnz. reflexivity. }
    pose proof (Z.log2_spec (Z.abs n) ltac:(lia)) as [Ha _].
    pose proof (Z.log2_spec (Z.pos d) ltac:(lia)) as [_ Hb].
    pose proof (Z.log2_nonneg (Z.abs n)) as Ha0.
    pose proof (Z.log2_nonneg (Z.pos d)) as Hb0.
    set (A := Z.log2 (Z.abs n)) in *. set (B := Z.log2 (Z.pos d)) in *.
    assert (2 ^ A < 2 ^ (53 + B))%Z as Hpow.
    { replace (53 + B)%Z with (52 + Z.succ B)%Z by lia.
      rewrite Z.pow_add_r by lia.
      change (2 ^ 52)%Z with 4503599627370496%Z.
      assert (4503599627370496 * Z.pos d < 4503599627370496 * 2 ^ Z.succ B)%Z
        by (apply Z.mul_lt_mono_pos_l; lia).
      revert Ha Hq H. generalize (2 ^ A)%Z (2 ^ Z.succ B)%Z (Z.abs n).
      intros; lia. }
    apply Z.pow_lt_mono_r_iff in Hpow; [| lia | lia]. lia.
Qed.

(** An integer is the nearest integer to itself. *)
Lemma rne_integer (q : Q) (z : Z) : q == inject_Z z → rne q = z.
Proof.
  intros H. unfold rne. cbv zeta. rewrite (Qfloor_comp _ _ H), Qfloor_Z.
  assert (Qcompare (q - inject_Z z) (1 # 2) = Lt) as ->
    by (apply Qlt_alt; rewrite H; unfold Qminus; rewrite Qplus_opp_r;
        reflexivity).
  reflexivity.
Qed.

(** A multiple of one half below 2^52 is a binary64 number: rounding
    leaves it as it is. *)
Lemma round64_exact (q : Q) (k : Z) :
  2 * q == inject_Z k → (Z.abs k < 9007199254740992)%Z →
  ∃ r : Q, round64 q = Finite r ∧ r == q.
Proof.
  intros Hq Hk. unfold round64.
  destruct (Qeq_bool q 0) eqn:Hz.
  - apply Qeq_bool_iff in Hz. exists 0. split; [reflexivity | symmetry; exact Hz].
  - apply Qeq_bool_neq in Hz.
    assert (inject_Z (-9007199254740992) < inject_Z k
            ∧ inject_Z k < inject_Z 9007199254740992) as [Hlo Hhi]
      by (rewrite <- !Zlt_Qlt; lia).
    assert (Qabs q < 2 ^ 52) as Habs.
    { rewrite two_pow_52. apply Qabs_Qlt_condition.
      change (inject_Z (-9007199254740992)) with (- (2 * inject_Z 4503599627370496)) in Hlo.
      change (inject_Z 9007199254740992) with (2 * inject_Z 4503599627370496) in Hhi.
      split; lra. }
    pose proof (ilog2_bound q Habs Hz) as Hlog.
    set (e := ulp_exponent q).
    assert (-1074 <= e <= -1)%Z as He by (unfold e, ulp_exponent; lia).
    set (n := (- e - 1)%Z).
    assert (0 <= n)%Z as Hn by (unfold n; lia).
    assert (0 < 2 ^ n) as Hpos by (apply Qpower_0_lt; reflexivity).
    assert (2 ^ e == / (2 * 2 ^ n)) as Hpow.
    { replace e with (- (n + 1))%Z by (unfold n; lia).
      rewrite Qpower_opp, Qpower_plus by discriminate.
      rewrite Qpower_1_r. apply Qinv_comp. ring. }
    assert (q / 2 ^ e == inject_Z (k * 2 ^ n)) as Hint.
    { rewrite inject_Z_mult, Zpower_Qpower by exact Hn.
      change (inject_Z 2) with 2. rewrite Hpow, <- Hq. field. lra. }
    rewrite (rne_integer _ _ Hint).
    assert (Qred (inject_Z (k * 2 ^ n) * 2 ^ e) == q) as Hr.
    { rewrite Qred_correct, inject_Z_mult, Zpower_Qpower by exact Hn.
      change (inject_Z 2) with 2. rewrite Hpow, <- Hq. field. lra. }
    assert (Qle_bool (2 ^ 1024) (Qabs (Qred (inject_Z (k * 2 ^ n) * 2 ^ e)))
            = false) as ->.
    { apply not_true_iff_false. intros Hle. apply Qle_bool_iff in Hle.
      rewrite Hr in Hle.
      assert (2 ^ 52 <= 2 ^ 1024) by (apply Qpower_le_compat_l; [lia | lra]).
      lra. }
    eexists. split; [reflexivity | exact Hr].
Qed.

Lemma denotes_round64 (q a : Q) (k : Z) :
  q == a → halves k a → (Z.abs k < 9007199254740992)%Z → denotes (round64 q) a.
Proof.
  intros Hq Hk Hb. unfold halves in Hk.
  destruct (round64_exact q k) as (r & Hr & Heq); [lra | exact Hb |].
  exists r. split; [exact Hr | lra].
Qed.

Lemma halves_plus (k1 k2 : Z) (a b : Q) :
  halves k1 a → halves k2 b → halves (k1 + k2) (a + b).
Proof. unfold halves. intros H1 H2. rewrite inject_Z_plus. lra. Qed.

Lemma halves_minus (k1 k2 : Z) (a b : Q) :
  halves k1 a → halves k2 b → halves (k1 - k2) (a - b).
Proof.
  unfold halves, Z.sub. intros H1 H2. rewrite inject_Z_plus, inject_Z_opp. lra.
Qed.

Lemma halves_int (z : Z) : halves (2 * z) (inject_Z z).
Proof. unfold halves. rewrite inject_Z_mult. reflexivity. Qed.

Lemma halves_lt (k1 k2 : Z) (a b : Q) :
  halves k1 a → halves k2 b → a < b ↔ (k1 < k2)%Z.
Proof. unfold halves. intros H1 H2. rewrite Zlt_Qlt. split; lra. Qed.

Lemma halves_le (k1 k2 : Z) (a b : Q) :
  halves k1 a → halves k2 b → a <= b ↔ (k1 <= k2)%Z.
Proof. unfold halves. intros H1 H2. rewrite Zle_Qle. split; lra. Qed.

Lemma halves_comp (k : Z) (a b : Q) : a == b → halves k a → halves k b.
Proof. unfold halves. intros H1 H2. lra. Qed.

Lemma fadd_exact (x y : float) (a b : Q) (ka kb : Z) :
  denotes x a → denotes y b → halves ka a → halves kb b →
  (Z.abs (ka + kb) < 9007199254740992)%Z →
  denotes (fadd x y) (a + b).
Proof.
  intros (ra & -> & Ha) (rb & -> & Hb) Hka Hkb Hbound. simpl.
  apply (denotes_round64 _ _ (ka + kb)); [lra | | exact Hbound].
  apply halves_plus; assumption.
Qed.

Lemma fsub_exact (x y : float) (a b : Q) (ka kb : Z) :
  denotes x a → denotes y b → halves ka a → halves kb b →
  (Z.abs (ka - kb) < 9007199254740992)%Z →
  denotes (fsub x y) (a - b).
Proof.
  intros (ra & -> & Ha) (rb & -> & Hb) Hka Hkb Hbound. simpl.
  apply (denotes_round64 _ _ (ka - kb)); [lra | | exact Hbound].
  apply halves_minus; assumption.
Qed.

Lemma float_of_int_exact (z : Z) :
  (Z.abs z < 4503599627370496)%Z →
  ∃ x : float, float_of_int z = Some x ∧ denotes x (inject_Z z).
Proof.
  intros Hz. unfold float_of_int.
  destruct (denotes_round64 (inject_Z z) (inject_Z z) (2 * z))
    as (r & -> & Hr); [reflexivity | apply halves_int | lia |].
  exists (Finite r). split; [reflexivity |]. exists r. split; [reflexivity | exact Hr].
Qed.

Lemma fdiv_two_exact (x : float) (z : Z) :
  denotes x (inject_Z z) → (Z.abs z < 9007199254740992)%Z →
  denotes (fdiv_two x) (inject_Z z / 2) ∧ halves z (inject_Z z / 2).
Proof.
  intros (r & -> & Hr) Hz.
  assert (halves z (inject_Z z / 2)) as Hh by (unfold halves; field).
  split; [| exact Hh]. simpl.
  apply (denotes_round64 _ _ z); [rewrite Hr; reflexivity | exact Hh | exact Hz].
Qed.

Lemma Qltb_comp (a a' b b' : Q) : a == a' → b == b' → Qltb a b = Qltb a' b'.
Proof. intros Ha Hb. unfold Qltb. rewrite Ha, Hb. reflexivity. Qed.

Lemma flt_denotes (x y : float) (a b : Q) :
  denotes x a → denotes y b → flt x y = Qltb a b.
Proof. intros (ra & -> & Ha) (rb & -> & Hb). simpl. apply Qltb_comp; assumption. Qed.

Lemma fmin_denotes (x y : float) (a b : Q) :
  denotes x a → denotes y b → denotes (fmin x y) (Qmin a b).
Proof.
  intros Hx Hy. unfold fmin. rewrite (flt_denotes y x b a Hy Hx).
  destruct Hx as (ra & -> & Ha), Hy as (rb & -> & Hb).
  destruct (Qltb b a) eqn:Hlt.
  - apply Qltb_lt in Hlt. exists rb. split; [reflexivity |].
    rewrite Q.min_r by lra. exact Hb.
  - apply Qltb_ge in Hlt. exists ra. split; [reflexivity |].
    rewrite Q.min_l by exact Hlt. exact Ha.
Qed.

Lemma same_segment_Segment (a a' b b' : Q) :
  a == a' → b == b' →
  same_segment (Segment (PFloat a) (PFloat b)) (Segment (PFloat a') (PFloat b')).
Proof.
  intros Ha Hb. unfold Segment. simpl.
  rewrite (Qleb_comp _ _ Ha _ _ Hb).
  destruct (Qle_bool a' b'); split; assumption.
Qed.

Lemma float_segment_denotes (x y : float) (a b : Q) :
  denotes x a → denotes y b →
  ∃ s : segment,
    float_segment x y = Some s
    ∧ same_segment s (Segment (PFloat a) (PFloat b)).
Proof.
  intros (ra & -> & Ha) (rb & -> & Hb). eexists. split; [reflexivity |].
  apply same_segment_Segment; assumption.
Qed.

Lemma float_abs_exact (s : segment) (a b : Q) (ka kb : Z) :
  same_segment s (PFloat a, PFloat b) → halves ka a → halves kb b →
  (Z.abs (kb - ka) < 9007199254740992)%Z →
  denotes (float_abs s) (b - a).
Proof.
  intros [H1 H2] Hka Hkb Hbound. unfold float_abs. simpl in H1, H2.
  apply (fsub_exact _ _ _ _ kb ka); try assumption.
  - exists (value s.2). split; [reflexivity | exact H2].
  - exists (value s.1). split; [reflexivity | exact H1].
Qed.

Lemma halves_min (k1 k2 : Z) (a b : Q) :
  halves k1 a → halves k2 b → halves (Z.min k1 k2) (Qmin a b).
Proof.
  intros H1 H2.
  destruct (Q.min_spec a b) as [[Hlt Heq] | [Hle Heq]].
  - apply (halves_comp _ a); [symmetry; exact Heq |].
    apply (halves_lt k1 k2 a b H1 H2) in Hlt. rewrite Z.min_l by lia. exact H1.
  - apply (halves_comp _ b); [symmetry; exact Heq |].
    apply (halves_le k2 k1 b a H2 H1) in Hle. rewrite Z.min_r by lia. exact H2.
Qed.


(** *** The loops on floats and on rationals

    As long as the cursor is a multiple of one half between -2^53 and
    2^53, the loops on floats take the steps of the loops on rationals. *)

Section Lockstep.

Variables (fseg : Z) (xfend : float) (fend : Q) (kf klo : Z).
Hypothesis Hfseg : (0 <= fseg < 4503599627370496)%Z.
Hypothesis Hxfend : denotes xfend fend.
Hypothesis Hkf : halves kf fend.
Hypothesis Hklo : (-9007199254740992 < klo)%Z.
Hypothesis Hkf_seg : (kf + 2 * fseg < 9007199254740992)%Z.

Lemma inner_loop_agrees (xe : float) (e : Q) (ke : Z) :
  denotes xe e → halves ke e → (ke <= kf)%Z →
  ∀ (fuel : nat) (x : float) (t : Q) (kt : Z) (out out' : SegmentList),
    denotes x t → halves kt t → (klo <= kt)%Z →
    Forall2 same_segment out out' →
    inner_agree (inner_loop fuel fseg xfend xe x out)
                (exact_inner_loop fuel fseg fend e t out').
Proof.
  intros Hxe Hke Hle.
  induction fuel as [| k IH]; intros x t kt out out' Hx Hkt Hlo Hout.
  - cbn [inner_loop exact_inner_loop].
    rewrite (flt_denotes x xe t e Hx Hxe).
    destruct (Qltb t e); [exact I | split; assumption].
  - cbn [inner_loop exact_inner_loop].
    rewrite (flt_denotes x xe t e Hx Hxe).
    destruct (Qltb t e) eqn:Hlt; [| split; assumption].
    apply Qltb_lt in Hlt. apply (halves_lt kt ke t e Hkt Hke) in Hlt.
    destruct (float_of_int_exact fseg) as (fx & -> & Hfx); [lia |].
    assert (denotes (fadd x fx) (t + inject_Z fseg)) as Hnext.
    { apply (fadd_exact _ _ _ _ kt (2 * fseg)); try assumption.
      - apply halves_int.
      - lia. }
    destruct (float_segment_denotes x (fmin (fadd x fx) xfend)
                t (Qmin (t + inject_Z fseg) fend)) as (s & -> & Hs);
      [exact Hx | apply fmin_denotes; assumption |].
    apply (IH _ _ (kt + 2 * fseg)%Z); try assumption.
    + apply halves_plus; [exact Hkt | apply halves_int].
    + lia.
    + apply Forall2_app; [exact Hout | constructor; [exact Hs | constructor]].
Qed.

Variable fdur : Z.
Hypothesis Hfdur : (0 <= fdur < 4503599627370496)%Z.
Hypothesis Hkf_dur : (kf + 2 * fdur < 9007199254740992)%Z.

Lemma outer_loop_agrees :
  ∀ (fuel : nat) (x : float) (t : Q) (kt : Z) (out out' : SegmentList),
    denotes x t → halves kt t → (klo <= kt)%Z →
    Forall2 same_segment out out' →
    outer_agree (outer_loop fuel fdur fseg xfend x out)
                (exact_outer_loop fuel fdur fseg fend t out').
Proof.
  induction fuel as [| k IH]; intros x t kt out out' Hx Hkt Hlo Hout.
  - cbn [outer_loop exact_outer_loop].
    rewrite (flt_denotes x xfend t fend Hx Hxfend).
    destruct (Qltb t fend); [exact I | assumption].
  - cbn [outer_loop exact_outer_loop].
    rewrite (flt_denotes x xfend t fend Hx Hxfend).
    destruct (Qltb t fend) eqn:Hlt; [| assumption].
    apply Qltb_lt in Hlt as Hlt'.
    apply (halves_lt kt kf t fend Hkt Hkf) in Hlt' as Hklt.
    destruct (float_of_int_exact fdur) as (fx & -> & Hfx); [lia |].
    cbv zeta.
    set (e := Qmin (t + inject_Z fdur) fend).
    set (xe := fmin (fadd x fx) xfend).
    assert (halves (kt + 2 * fdur) (t + inject_Z fdur)) as Hksum
      by (apply halves_plus; [exact Hkt | apply halves_int]).
    assert (denotes xe e) as Hxe.
    { apply fmin_denotes; [| exact Hxfend].
      apply (fadd_exact _ _ _ _ kt (2 * fdur)); try assumption.
      - apply halves_int.
      - lia. }
    assert (halves (Z.min (kt + 2 * fdur) kf) e) as Hke
      by (apply halves_min; assumption).
    assert (t <= e) as Hte.
    { subst e. apply Q.min_glb; [| lra].
      assert (0 <= inject_Z fdur)
        by (change 0 with (inject_Z 0); rewrite <- Zle_Qle; lia).
      lra. }
    destruct (float_segment_denotes x xe t e Hx Hxe) as (s & -> & Hs).
    rewrite (Segment_ordered (PFloat t) (PFloat e)) in * by exact Hte.
    assert (denotes (float_abs s) (seg_abs (PFloat t, PFloat e))) as Habs.
    { unfold seg_abs. cbn [fst snd value].
      apply (float_abs_exact s t e kt (Z.min (kt + 2 * fdur) kf));
        try assumption.
      lia. }
    rewrite (flt_denotes (Finite (inject_Z fseg)) (float_abs s)
               (inject_Z fseg) (seg_abs (PFloat t, PFloat e)));
      [| exists (inject_Z fseg); split; reflexivity | exact Habs].
    rewrite (flt_denotes (float_abs s) (Finite (inject_Z fdur))
               (seg_abs (PFloat t, PFloat e)) (inject_Z fdur));
      [| exact Habs | exists (inject_Z fdur); split; reflexivity].
    destruct (Qltb (inject_Z fseg) (seg_abs (PFloat t, PFloat e))
              && Qltb (seg_abs (PFloat t, PFloat e)) (inject_Z fdur)).
    + pose proof (inner_loop_agrees xe e (Z.min (kt + 2 * fdur) kf) Hxe Hke
                    ltac:(lia) k x t kt out out' Hx Hkt Hlo Hout) as Hin.
      destruct (inner_loop k fseg xfend xe x out) as [[x1 l1] |],
               (exact_inner_loop k fseg fend e t out') as [[t1 l1'] |];
        cbn in Hin; try contradiction; [| exact I].
      destruct Hin as [_ Hl].
      apply (IH _ _ (Z.min (kt + 2 * fdur) kf)); try assumption. lia.
    + apply (IH _ _ (Z.min (kt + 2 * fdur) kf)); try assumption; [lia |].
      apply Forall2_app; [exact Hout | constructor; [exact Hs | constructor]].
Qed.

End Lockstep.

(** More fuel does not change a result. *)
Lemma inner_loop_fuel_mono (fseg : Z) (fend e : float) (fuel fuel' : nat) :
  (fuel <= fuel')%nat →
  ∀ (t : float) (out : SegmentList) (r : float * SegmentList),
    inner_loop fuel fseg fend e t out = Some r →
    inner_loop fuel' fseg fend e t out = Some r.
Proof.
  revert fuel'. induction fuel as [| k IH]; intros fuel' Hle t out r.
  - destruct fuel'; cbn [inner_loop]; destruct (flt t e); congruence.
  - destruct fuel' as [| k']; [lia |]. cbn [inner_loop].
    destruct (flt t e); [| congruence].
    destruct (float_of_int fseg) as [fseg' |]; [| congruence].
    destruct (float_segment _ _) as [seg |]; [| congruence].
    apply IH. lia.
Qed.

Lemma outer_loop_fuel_mono (fdur fseg : Z) (fend : float) (fuel fuel' : nat) :
  (fuel <= fuel')%nat →
  ∀ (t : float) (out r : SegmentList),
    outer_loop fuel fdur fseg fend t out = Some r →
    outer_loop fuel' fdur fseg fend t out = Some r.
Proof.
  revert fuel'. induction fuel as [| k IH]; intros fuel' Hle t out r.
  - destruct fuel'; cbn [outer_loop]; destruct (flt t fend); congruence.
  - destruct fuel' as [| k']; [lia |]. cbn [outer_loop].
    destruct (flt t fend); [| congruence].
    destruct (float_of_int fdur) as [fdur' |]; [| congruence].
    cbv zeta. destruct (float_segment _ _) as [seg |]; [| congruence].
    destruct (_ && _).
    + destruct (inner_loop k _ _ _ _ _) as [[t' out'] |] eqn:Hin;
        [| congruence].
      rewrite (inner_loop_fuel_mono _ _ _ k k' ltac:(lia) _ _ _ Hin).
      apply IH. lia.
    + apply IH. lia.
Qed.

Lemma body_fuel_mono (fuel fuel' : nat) (args : Z * Z * Z * Z * Z)
    (r : SegmentList) :
  (fuel <= fuel')%nat →
  omicron_output_segments_body fuel args = Some r →
  omicron_output_segments_body fuel' args = Some r.
Proof.
  destruct args as [[[[start end_] chunk] segment] overlap].
  intros Hle. unfold omicron_output_segments_body.
  destruct (float_of_int overlap), (float_of_int start), (float_of_int end_);
    try congruence.
  apply outer_loop_fuel_mono, Hle.
Qed.

(** *** Segments with the same endpoints *)

Lemma same_segment_int (s s' : segment) :
  same_segment s s' → int_segment s = int_segment s'.
Proof.
  intros [H1 H2]. unfold int_segment. rewrite !int_value_trunc.
  rewrite (trunc_comp _ _ H1), (trunc_comp _ _ H2). reflexivity.
Qed.

Lemma same_segments_int (l l' : SegmentList) :
  Forall2 same_segment l l' → map int_segment l = map int_segment l'.
Proof.
  induction 1 as [| s s' l l' Hs _ IH]; [reflexivity |]. simpl.
  rewrite (same_segment_int _ _ Hs), IH. reflexivity.
Qed.

Lemma same_segments_chain (a b : Q) (l l' : SegmentList) :
  Forall2 same_segment l l' → chain a b l' → chain a b l.
Proof.
  intros H. revert a. induction H as [| s s' l l' [H1 H2] _ IH]; intros a.
  - intros Hc. exact Hc.
  - simpl. intros (K1 & K2 & K3). split; [| split].
    + rewrite H1. exact K1.
    + rewrite H1, H2. exact K2.
    + apply IH. apply chain_start_eq with (value s'.2); [| exact K3].
      symmetry. exact H2.
Qed.

Lemma same_segments_nonempty (l l' : SegmentList) :
  Forall2 same_segment l l' → Forall nonempty l' → Forall nonempty l.
Proof.
  induction 1 as [| s s' l l' [H1 H2] _ IH]; intros Hne; [constructor |].
  apply Forall_cons in Hne as [Hs Hl]. constructor; [| apply IH, Hl].
  unfold nonempty in *. rewrite H1, H2. exact Hs.
Qed.

Lemma same_segment_abs (s s' : segment) :
  same_segment s s' → seg_abs s == seg_abs s'.
Proof. intros [H1 H2]. unfold seg_abs. rewrite H1, H2. reflexivity. Qed.

(** *** [omicron_output_segments] on small arguments *)

Lemma small_bound (z : Z) : small z → (Z.abs z <= 1125899906842624)%Z.
Proof. unfold small. lia. Qed.

(** On arguments between -2^50 and 2^50, with steps that are not negative,
    the body on floats does what the body on rationals does. *)
Lemma body_agrees (fuel : nat) (start end_ chunk segment overlap : Z) :
  small start → small end_ → small chunk → small segment → small overlap →
  (overlap <= chunk)%Z → (overlap <= segment)%Z →
  outer_agree
    (omicron_output_segments_body fuel (start, end_, chunk, segment, overlap))
    (exact_body fuel (start, end_, chunk, segment, overlap)).
Proof.
  intros Hs He Hc Hg Ho Hchunk Hseg.
  apply small_bound in Hs, He, Hc, Hg, Ho.
  unfold omicron_output_segments_body, exact_body.
  destruct (float_of_int_exact overlap) as (xo & -> & Hxo); [lia |].
  destruct (float_of_int_exact start) as (xs & -> & Hxs); [lia |].
  destruct (float_of_int_exact end_) as (xe & -> & Hxe); [lia |].
  cbv zeta.
  destruct (fdiv_two_exact xo overlap Hxo) as [Hpad Hkpad]; [lia |].
  assert (denotes (fadd xs (fdiv_two xo))
            (inject_Z start + inject_Z overlap / 2)) as Hstart.
  { apply (fadd_exact _ _ _ _ (2 * start) overlap); try assumption.
    - apply halves_int.
    - lia. }
  assert (denotes (fsub xe (fdiv_two xo))
            (inject_Z end_ - inject_Z overlap / 2)) as Hend.
  { apply (fsub_exact _ _ _ _ (2 * end_) overlap); try assumption.
    - apply halves_int.
    - lia. }
  apply (outer_loop_agrees (segment - overlap) _ _
           (2 * end_ - overlap) (2 * start + overlap) ltac:(lia) Hend
           ltac:(apply halves_minus; [apply halves_int | exact Hkpad])
           ltac:(lia) ltac:(lia) (chunk - overlap) ltac:(lia) ltac:(lia)
           fuel _ _ (2 * start + overlap)%Z [] [] Hstart).
  - apply halves_plus; [apply halves_int | exact Hkpad].
  - lia.
  - constructor.
Qed.

(** So does the decorated function. *)
Lemma output_agrees (fuel : nat) (start end_ chunk segment overlap : Z) :
  small start → small end_ → small chunk → small segment → small overlap →
  (overlap <= chunk)%Z → (overlap <= segment)%Z →
  omicron_output_segments fuel start end_ chunk segment overlap
  = exact_output_segments fuel start end_ chunk segment overlap.
Proof.
  intros Hs He Hc Hg Ho Hchunk Hseg.
  pose proof (body_agrees fuel start end_ chunk segment overlap
                Hs He Hc Hg Ho Hchunk Hseg) as H.
  unfold omicron_output_segments, exact_output_segments, integer_segments.
  destruct (omicron_output_segments_body fuel _) as [l |],
           (exact_body fuel _) as [l' |]; cbn in H; try contradiction;
    [| reflexivity].
  rewrite (same_segments_int l l' H). reflexivity.
Qed.

(** The undecorated body walks the whole span: what it returns, given
    enough fuel, is a gapless chain of non-empty intervals from
    [usable_start] to [usable_end], and nothing when the span is empty. *)
Lemma body_tiles (start end_ chunk segment overlap : Z) :
  small start → small end_ → small chunk → small segment →
  (overlap < chunk)%Z → (overlap < segment)%Z → (0 <= overlap)%Z →
  ∃ l : SegmentList,
    (∀ fuel, (enough_fuel start end_ <= fuel)%nat →
       omicron_output_segments_body fuel (start, end_, chunk, segment, overlap)
       = Some l
       ∧ omicron_output_segments fuel start end_ chunk segment overlap
         = Some (map int_segment l))
    ∧ Forall nonempty l
    ∧ ((overlap < end_ - start)%Z →
       chain (usable_start start overlap) (usable_end end_ overlap) l)
    ∧ ((end_ - start <= overlap)%Z → l = []).
Proof.
  intros Hs He Hc Hg Hchunk Hseg Hov.
  assert (small overlap) as Ho by (unfold small in *; lia).
  destruct (exact_body_tiles start end_ chunk segment overlap Hchunk Hseg Hov)
    as (l' & Hrun & Hne & Hchain & Hnil).
  pose proof (body_agrees (enough_fuel start end_) start end_ chunk segment
                overlap Hs He Hc Hg Ho ltac:(lia) ltac:(lia)) as H.
  rewrite (Hrun _ (Nat.le_refl _)) in H.
  destruct (omicron_output_segments_body (enough_fuel start end_) _)
    as [l |] eqn:Hbody; cbn in H; [| contradiction].
  exists l. split; [| split; [| split]].
  - intros fuel Hfuel.
    pose proof (body_fuel_mono _ fuel _ _ Hfuel Hbody) as Hb.
    split; [exact Hb |].
    unfold omicron_output_segments, integer_segments. rewrite Hb. reflexivity.
  - apply (same_segments_nonempty l l' H Hne).
  - intros Hlong. apply (same_segments_chain _ _ l l' H), Hchain, Hlong.
  - intros Hshort. rewrite (Hnil Hshort) in H.
    apply Forall2_nil_inv_r in H. exact H.
Qed.

(** A cursor that a step of the outer loop leaves where it is never reaches
    the end. *)
Lemma outer_loop_stalled (fdur fseg : Z) (fend t fdur' : float)
    (seg : segment) :
  flt t fend = true →
  float_of_int fdur = Some fdur' →
  fmin (fadd t fdur') fend = t →
  float_segment t t = Some seg →
  flt (Finite (inject_Z fseg)) (float_abs seg)
  && flt (float_abs seg) (Finite (inject_Z fdur)) = false →
  ∀ (fuel : nat) (out : SegmentList),
    outer_loop fuel fdur fseg fend t out = None.
Proof.
  intros Hlt Hdur Hmin Hseg Hcond.
  induction fuel as [| k IH]; intros out; cbn [outer_loop]; rewrite Hlt;
    [reflexivity |].
  rewrite Hdur. cbv zeta. rewrite Hmin, Hseg, Hcond. apply IH.
Qed.

(** *** [omicron_output_segments] *)

(** The scenario of the specification: a job from 0 to 100 with chunk 10,
    segment 5 and overlap 2 writes files of length 8 over [[1, 99)]; the
    last one, of length 2, is shorter than a segment and is not cut. *)
Example scenario_0_100 :
  omicron_output_segments 13 0 100 10 5 2
  = Some (map (λ s : Z * Z, (PInt s.1, PInt s.2))
            [(1, 9); (9, 17); (17, 25); (25, 33); (33, 41); (41, 49); (49, 57);
             (57, 65); (65, 73); (73, 81); (81, 89); (89, 97); (97, 99)]%Z).
Proof. vm_compute. reflexivity. Qed.

(** A tail shorter than a chunk and longer than a segment is cut into
    pieces of the length of a segment. *)
Example scenario_subdivided :
  omicron_output_segments 8 0 23 10 3 2
  = Some (map (λ s : Z * Z, (PInt s.1, PInt s.2))
            [(1, 9); (9, 17); (17, 18); (18, 19); (19, 20); (20, 21);
             (21, 22)]%Z).
Proof. vm_compute. reflexivity. Qed.

(** Beyond 2^53 the sums are rounded.  A job from 2^53 + 1 to 2^53 + 11
    with chunk 4, segment 2 and overlap 1 gets files that start before the
    job and end after it. *)
Example scenario_rounded :
  omicron_output_segments 4
    9007199254740993 9007199254741003 4 2 1
  = Some (map (λ s : Z * Z, (PInt s.1, PInt s.2))
            [(9007199254740992, 9007199254740996);
             (9007199254740996, 9007199254741000);
             (9007199254741000, 9007199254741004)]%Z).
Proof. vm_compute. reflexivity. Qed.

(** An integer too large for a float: [overlap / 2.] raises
    [OverflowError]. *)
Example scenario_overflow (fuel : nat) :
  omicron_output_segments fuel 0 10 4 2 (10 ^ 400) = None.
Proof.
  unfold omicron_output_segments, integer_segments,
    omicron_output_segments_body.
  assert (float_of_int (10 ^ 400) = None) as ->
    by (vm_compute; reflexivity).
  reflexivity.
Qed.

(** C1, amended.  For integers [start < end] and
    [chunk > segment > overlap >= 0] with [end - start > overlap], all
    between -2^50 and 2^50, the list that the loop builds holds non-empty
    intervals, is sorted by start and pairwise-disjoint, and the union of
    its intervals is exactly [[start + overlap/2, end - overlap/2)].
    The list that [omicron_output_segments] returns is that list with every
    endpoint truncated to an integer: it is sorted by start and
    pairwise-disjoint, and the union of its intervals is exactly
    [[int(start + overlap/2), int(end - overlap/2))], which is
    [[start + overlap/2, end - overlap/2)] itself when [overlap] is even. *)
Theorem omicron_output_segments_tiles (start end_ chunk segment overlap : Z) :
  small start → small end_ → small chunk →
  (start < end_)%Z → (segment < chunk)%Z → (overlap < segment)%Z →
  (0 <= overlap)%Z → (overlap < end_ - start)%Z →
  ∃ raw l : SegmentList,
    (∀ fuel, (enough_fuel start end_ <= fuel)%nat →
       omicron_output_segments_body fuel (start, end_, chunk, segment, overlap)
       = Some raw
       ∧ omicron_output_segments fuel start end_ chunk segment overlap = Some l)
    ∧ l = map int_segment raw
    ∧ Forall nonempty raw
    ∧ sorted_by_start raw
    ∧ pairwise_disjoint raw
    ∧ union_is raw (usable_start start overlap) (usable_end end_ overlap)
    ∧ sorted_by_start l
    ∧ pairwise_disjoint l
    ∧ union_is l (inject_Z (trunc (usable_start start overlap)))
                 (inject_Z (trunc (usable_end end_ overlap)))
    ∧ (Z.even overlap = true →
       union_is l (usable_start start overlap) (usable_end end_ overlap)).
Proof.
  intros Hs He Hc Hse Hchunk Hseg Hov Hlong.
  assert (small segment) as Hg by (unfold small in *; lia).
  destruct (body_tiles start end_ chunk segment overlap Hs He Hc Hg
              ltac:(lia) Hseg Hov)
    as (raw & Hrun & Hne & Hraw & _).
  specialize (Hraw Hlong). pose proof (chain_int _ _ _ Hraw) as Hi.
  exists raw, (map int_segment raw).
  split; [exact Hrun | split; [reflexivity |]].
  split; [exact Hne |].
  split; [apply (chain_sorted _ _ _ Hraw) |].
  split; [apply (chain_disjoint _ _ _ Hraw) |].
  split; [apply (chain_union _ _ _ Hraw) |].
  split; [apply (chain_sorted _ _ _ Hi) |].
  split; [apply (chain_disjoint _ _ _ Hi) |].
  split; [apply (chain_union _ _ _ Hi) |].
  intros Heven.
  apply (union_is_comp _ _ _ _ _ (usable_start_even start overlap Heven)
           (usable_end_even end_ overlap Heven)).
  apply (chain_union _ _ _ Hi).
Qed.

Lemma omicron_output_segments_tiles_witness :
  ∃ raw l : SegmentList,
    (∀ fuel, (enough_fuel 0 100 <= fuel)%nat →
       omicron_output_segments_body fuel (0, 100, 10, 5, 2)%Z = Some raw
       ∧ omicron_output_segments fuel 0 100 10 5 2 = Some l)
    ∧ l = map int_segment raw
    ∧ Forall nonempty raw
    ∧ sorted_by_start raw
    ∧ pairwise_disjoint raw
    ∧ union_is raw (usable_start 0 2) (usable_end 100 2)
    ∧ sorted_by_start l
    ∧ pairwise_disjoint l
    ∧ union_is l (inject_Z (trunc (usable_start 0 2)))
                 (inject_Z (trunc (usable_end 100 2)))
    ∧ union_is l (usable_start 0 2) (usable_end 100 2).
Proof.
  destruct (omicron_output_segments_tiles 0 100 10 5 2)
    as (raw & l & Hrun & Hl & Hne & Hs & Hd & Hu & Hs' & Hd' & Hu' & Heven);
    [unfold small; lia.. |].
  exists raw, l. repeat (split; [assumption |]).
  apply Heven. reflexivity.
Defined.

(** C1 as stated fails when [overlap] is odd: for a job from 0 to 10 with
    chunk 4, segment 2 and overlap 1 the function returns [0,3), [3,6),
    [6,9), whose union holds 0 and so is not [[1/2, 19/2)]. *)
Lemma omicron_output_segments_odd_overlap :
  ¬ (∀ (fuel : nat) (l : SegmentList),
       omicron_output_segments fuel 0 10 4 2 1 = Some l →
       sorted_by_start l ∧ pairwise_disjoint l
       ∧ union_is l (usable_start 0 1) (usable_end 10 1)).
Proof.
  intros H.
  destruct (H 4%nat [(PInt 0, PInt 3); (PInt 3, PInt 6); (PInt 6, PInt 9)]
              ltac:(vm_compute; reflexivity)) as (_ & _ & Hu).
  destruct (Hu 0) as [Hin _].
  assert (usable_start 0 1 <= 0) as Hle.
  { apply Hin. exists (PInt 0, PInt 3). split.
    - apply elem_of_cons. left. reflexivity.
    - split; simpl; [apply Qle_refl | reflexivity]. }
  revert Hle. vm_compute. intros Hle. apply Hle. reflexivity.
Qed.

(** C2, amended.  When [end - start <= overlap], with [start], [end] and
    [chunk] between -2^50 and 2^50, the loop body never runs: the function
    returns the empty list, whatever the fuel. *)
Theorem omicron_output_segments_degenerate
    (fuel : nat) (start end_ chunk segment overlap : Z) :
  small start → small end_ → small chunk →
  (start < end_)%Z → (segment < chunk)%Z → (overlap < segment)%Z →
  (0 <= overlap)%Z → (end_ - start <= overlap)%Z →
  omicron_output_segments fuel start end_ chunk segment overlap = Some [].
Proof.
  intros Hs He Hc _ Hchunk Hseg Hov Hshort.
  rewrite output_agrees by (unfold small in *; lia).
  unfold exact_output_segments, integer_segments, exact_body.
  rewrite exact_outer_loop_done; [reflexivity |].
  fold (usable_start start overlap) (usable_end end_ overlap).
  destruct (Qlt_le_dec (usable_start start overlap) (usable_end end_ overlap))
    as [K | K]; [| exact K].
  apply span_nonempty in K. lia.
Qed.

Lemma omicron_output_segments_degenerate_witness :
  omicron_output_segments 0 10 14 8 6 4 = Some [].
Proof. apply omicron_output_segments_degenerate; unfold small; lia. Defined.

(** C2 as stated fails beyond 2^53, where [start + overlap/2] and
    [end - overlap/2] are rounded: for a job from 2^53 + 1 to 2^53 + 3 with
    chunk 4, segment 3 and overlap 2 the first is rounded down to 2^53 and
    the second up to 2^53 + 4, so the loop runs and the function returns
    two intervals. *)
Lemma omicron_output_segments_degenerate_rounded :
  ¬ (∀ (fuel : nat) (start end_ chunk segment overlap : Z),
       (start < end_)%Z → (segment < chunk)%Z → (overlap < segment)%Z →
       (0 <= overlap)%Z → (end_ - start <= overlap)%Z →
       omicron_output_segments fuel start end_ chunk segment overlap = Some [])
  ∧ omicron_output_segments 3 9007199254740993 9007199254740995 4 3 2
    = Some [(PInt 9007199254740992, PInt 9007199254740994);
            (PInt 9007199254740994, PInt 9007199254740996)].
Proof.
  assert (omicron_output_segments 3 9007199254740993 9007199254740995 4 3 2
          = Some [(PInt 9007199254740992, PInt 9007199254740994);
                  (PInt 9007199254740994, PInt 9007199254740996)]) as Hrun
    by (vm_compute; reflexivity).
  split; [| exact Hrun].
  intros H.
  rewrite (H 3%nat 9007199254740993 9007199254740995 4 3 2)%Z in Hrun
    by lia.
  discriminate.
Qed.

(** C5, amended.  Under [start < end] and [chunk > segment > overlap >= 0],
    with [start], [end] and [chunk] between -2^50 and 2^50, both loops end:
    the cursor moves by [chunk - overlap >= 1] or [segment - overlap >= 1]
    at each turn, so [enough_fuel start end], one more than [end - start],
    is fuel enough and the function returns a list. *)
Theorem omicron_output_segments_terminates
    (fuel : nat) (start end_ chunk segment overlap : Z) :
  small start → small end_ → small chunk →
  (start < end_)%Z → (segment < chunk)%Z → (overlap < segment)%Z →
  (0 <= overlap)%Z → (enough_fuel start end_ <= fuel)%nat →
  ∃ l : SegmentList,
    omicron_output_segments fuel start end_ chunk segment overlap = Some l.
Proof.
  intros Hs He Hc _ Hchunk Hseg Hov Hfuel.
  assert (small segment) as Hg by (unfold small in *; lia).
  destruct (body_tiles start end_ chunk segment overlap Hs He Hc Hg
              ltac:(lia) Hseg Hov)
    as (raw & Hrun & _).
  exists (map int_segment raw). apply (Hrun fuel Hfuel).
Qed.

Lemma omicron_output_segments_terminates_witness :
  ∃ l : SegmentList, omicron_output_segments 24 0 23 10 3 2 = Some l.
Proof.
  apply omicron_output_segments_terminates; unfold small; try lia.
  vm_compute. lia.
Defined.

(** C5 as stated fails beyond 2^53, where a step may be rounded away: for
    a job from 2^54 to 2^54 + 100 with chunk 2, segment 1 and overlap 0 the
    cursor is at 2^54, and 2^54 + 2 is rounded to 2^54 again: the cursor
    never moves and the outer loop never ends, whatever the fuel. *)
Lemma omicron_output_segments_stalls :
  ¬ (∀ start end_ chunk segment overlap : Z,
       (start < end_)%Z → (segment < chunk)%Z → (overlap < segment)%Z →
       (0 <= overlap)%Z →
       ∃ (fuel : nat) (l : SegmentList),
         omicron_output_segments fuel start end_ chunk segment overlap
         = Some l)
  ∧ ∀ fuel : nat,
      omicron_output_segments fuel 18014398509481984 18014398509482084 2 1 0
      = None.
Proof.
  assert (∀ fuel : nat,
            omicron_output_segments fuel 18014398509481984 18014398509482084
              2 1 0 = None) as Hrun.
  { intros fuel.
    unfold omicron_output_segments, integer_segments,
      omicron_output_segments_body.
    destruct (float_of_int 0) as [overlap' |] eqn:E0; [| reflexivity].
    destruct (float_of_int 18014398509481984) as [start' |] eqn:E1;
      [| reflexivity].
    destruct (float_of_int 18014398509482084) as [end' |] eqn:E2;
      [| reflexivity].
    vm_compute in E0, E1, E2.
    injection E0 as <-. injection E1 as <-. injection E2 as <-.
    cbv zeta.
    rewrite (outer_loop_stalled _ _ _ _ (Finite 2)
               (PFloat 18014398509481984, PFloat 18014398509481984));
      [reflexivity | | | | |]; vm_compute; reflexivity. }
  split; [| exact Hrun].
  intros H.
  destruct (H 18014398509481984 18014398509482084 2 1 0)%Z
    as (fuel & l & Hl); try lia.
  rewrite Hrun in Hl. discriminate.
Qed.


(** *** [integer_segments] *)

(** Two intervals share no point exactly when one of them is empty or one
    ends before the other starts. *)
Lemma disjoint_cases (s1 s2 : segment) :
  (∀ x : Q, ¬ (contains s1 x ∧ contains s2 x)) ↔
  value s1.2 <= value s1.1 ∨ value s2.2 <= value s2.1
  ∨ value s1.2 <= value s2.1 ∨ value s2.2 <= value s1.1.
Proof.
  unfold contains. split.
  - intros H.
    destruct (Qlt_le_dec (value s1.1) (value s1.2)) as [A | A]; [| tauto].
    destruct (Qlt_le_dec (value s2.1) (value s2.2)) as [B | B]; [| tauto].
    destruct (Qlt_le_dec (value s2.1) (value s1.2)) as [C | C]; [| tauto].
    destruct (Qlt_le_dec (value s1.1) (value s2.2)) as [D | D]; [| tauto].
    exfalso.
    destruct (Qlt_le_dec (value s1.1) (value s2.1)) as [E | E].
    + apply (H (value s2.1)). repeat split; lra.
    + apply (H (value s1.1)). repeat split; lra.
  - intros H x [[A1 A2] [B1 B2]]. destruct H as [H | [H | [H | H]]]; lra.
Qed.

Lemma int_le (a b : num) :
  value a <= value b → value (PInt (int a)) <= value (PInt (int b)).
Proof. intros H. simpl. rewrite <- Zle_Qle. apply int_mono, H. Qed.

Lemma lookup_int_segments (segs : SegmentList) (i : nat) (o : segment) :
  Forall well_formed segs →
  map int_segment segs !! i = Some o →
  ∃ s : segment,
    segs !! i = Some s ∧ well_formed s ∧ o = (PInt (int s.1), PInt (int s.2)).
Proof.
  intros Hwf Ho. apply list_lookup_fmap_Some_1 in Ho as (s & -> & Hs).
  assert (well_formed s) as Hw
    by (eapply Forall_lookup_1; [exact Hwf | exact Hs]).
  exists s. split; [exact Hs | split; [exact Hw | apply int_segment_eq, Hw]].
Qed.

(** What [int] returns is its argument rounded toward zero. *)
Lemma int_truncated (x : num) : truncated (value x) (int x).
Proof.
  rewrite int_value_trunc. split; [apply trunc_nonneg | apply trunc_nonpos].
Qed.

(** C4.  If [f] returns a list of segments that is sorted by start and
    pairwise-disjoint, then [integer_segments f] returns a list of the same
    length, in the same order, whose segment at each index has for
    endpoints the integers that the endpoints of the original at that
    index give when rounded toward zero (the floor of a positive endpoint,
    the ceiling of a negative one), and which is still sorted by start and
    pairwise-disjoint.  The segments are [glue.segments.segment] values,
    whose constructor keeps the endpoints ordered. *)
Theorem integer_segments_preserves {A : Type}
    (f : A → option SegmentList) (args : A) (segs : SegmentList) :
  f args = Some segs →
  Forall well_formed segs →
  sorted_by_start segs →
  pairwise_disjoint segs →
  ∃ out : SegmentList,
    integer_segments f args = Some out
    ∧ length out = length segs
    ∧ (∀ (i : nat) (s : segment),
         segs !! i = Some s →
         ∃ a b : Z,
           out !! i = Some (PInt a, PInt b)
           ∧ truncated (value s.1) a ∧ truncated (value s.2) b)
    ∧ sorted_by_start out
    ∧ pairwise_disjoint out.
Proof.
  intros Hf Hwf Hsorted Hdisj.
  exists (map int_segment segs). split; [| split; [| split; [| split]]].
  - unfold integer_segments. rewrite Hf. reflexivity.
  - apply length_map.
  - intros i s Hs. exists (int s.1), (int s.2).
    split; [| split; apply int_truncated].
    change (map int_segment segs) with (int_segment <$> segs).
    rewrite list_lookup_fmap, Hs. simpl. f_equal.
    apply int_segment_eq. eapply Forall_lookup_1; [exact Hwf | exact Hs].
  - intros i j o1 o2 Hij H1 H2.
    apply (lookup_int_segments _ _ _ Hwf) in H1 as (s1 & Hs1 & _ & ->).
    apply (lookup_int_segments _ _ _ Hwf) in H2 as (s2 & Hs2 & _ & ->).
    apply int_le. apply (Hsorted i j s1 s2 Hij Hs1 Hs2).
  - intros i j o1 o2 Hij H1 H2.
    apply (lookup_int_segments _ _ _ Hwf) in H1 as (s1 & Hs1 & _ & ->).
    apply (lookup_int_segments _ _ _ Hwf) in H2 as (s2 & Hs2 & _ & ->).
    apply disjoint_cases.
    pose proof (Hdisj i j s1 s2 Hij Hs1 Hs2) as H.
    apply disjoint_cases in H.
    cbn [fst snd].
    destruct H as [H | [H | [H | H]]]; apply int_le in H; tauto.
Qed.

Lemma integer_segments_preserves_witness :
  ∃ out : SegmentList,
    integer_segments (λ _ : unit, Some two_fractional_segments) ()
    = Some out
    ∧ length out = length two_fractional_segments
    ∧ (∀ (i : nat) (s : segment),
         two_fractional_segments !! i = Some s →
         ∃ a b : Z,
           out !! i = Some (PInt a, PInt b)
           ∧ truncated (value s.1) a ∧ truncated (value s.2) b)
    ∧ sorted_by_start out
    ∧ pairwise_disjoint out.
Proof.
  set (segs := two_fractional_segments).
  assert (chain (3 # 2) (9 # 2) segs) as Hc
    by (apply chainb_chain; vm_compute; reflexivity).
  apply (integer_segments_preserves (λ _ : unit, Some segs) () segs).
  - reflexivity.
  - apply (chain_well_formed _ _ _ Hc).
  - apply (chain_sorted _ _ _ Hc).
  - apply (chain_disjoint _ _ _ Hc).
Defined.

(** C10.  [integer_segments] maps the returned segments one to one and
    drops none: the decorated function returns as many segments as [f]
    does.  So a non-empty interval whose endpoints lie inside one integer
    cell, such as [[1.2, 1.8)], comes back as the zero-length interval
    [[1, 1)]: [end > start] is not preserved. *)
Theorem integer_segments_zero_length :
  (∀ (A : Type) (f : A → option SegmentList) (args : A),
     length <$> integer_segments f args = length <$> f args)
  ∧ ∃ s : segment,
      s = Segment (PFloat (12 # 10)) (PFloat (18 # 10))
      ∧ nonempty s
      ∧ integer_segments (λ _ : unit, Some [s]) () = Some [(PInt 1, PInt 1)]
      ∧ ¬ nonempty (PInt 1, PInt 1).
Proof.
  split.
  - intros A f args. unfold integer_segments.
    destruct (f args) as [segs |]; simpl; [| reflexivity].
    rewrite length_map. reflexivity.
  - exists (PFloat (12 # 10), PFloat (18 # 10)).
    split; [vm_compute; reflexivity |].
    split; [vm_compute; reflexivity |].
    split; [vm_compute; reflexivity |].
    vm_compute. discriminate.
Qed.

(** *** [write_segments] *)

(** The loop appends, to what is written already, one line per segment. *)
Lemma print_segments_lines (segmentlist : SegmentList) (written : string) :
  print_segments segmentlist written
  = written +:+ foldr (λ seg rest, format_segment seg +:+ newline +:+ rest)
                  EmptyString segmentlist.
Proof.
  revert written. induction segmentlist as [| seg l IH]; intros written; simpl.
  - symmetry. apply append_empty_r.
  - rewrite IH, !append_assoc. reflexivity.
Qed.

(** The numeral that [%d] writes for a number reads back as the number
    truncated toward zero. *)
Lemma read_int_pct_d (x : num) : read_int (pct_d x) = Some (trunc (value x)).
Proof.
  unfold read_int, pct_d. rewrite <- int_value_trunc.
  rewrite NilZero.isi.
  - simpl. rewrite DecimalZ.of_to. reflexivity.
  - destruct (int x); simpl; [discriminate | |]; try discriminate.
    intros [= H]. apply (DecimalPos.Unsigned.to_uint_nonnil _ H).
  - destruct (int x); simpl; [discriminate | |]; try discriminate.
    intros [= H]. apply (DecimalPos.Unsigned.to_uint_nonnil _ H).
Qed.

(** C3, amended.  [write_segments] writes, for each segment in order, the
    line ["<a> <b>"] where [a] and [b] are the endpoints converted by [%d]:
    the numeral of each endpoint truncated toward zero.  An integer endpoint
    is written as it is; a fractional one is written truncated. *)
Theorem write_segments_truncates
    (segmentlist : SegmentList) (outfile : string) (fs : gmap string string) :
  write_segments segmentlist outfile fs !! outfile
  = Some (foldr (λ seg rest,
                   pct_d seg.1 +:+ " " +:+ pct_d seg.2 +:+ newline +:+ rest)
            EmptyString segmentlist)
  ∧ (∀ x : num, read_int (pct_d x) = Some (trunc (value x)))
  ∧ (∀ z : Z, trunc (value (PInt z)) = z).
Proof.
  split; [| split].
  - unfold write_segments. rewrite lookup_insert_eq, print_segments_lines.
    f_equal. induction segmentlist as [| seg l IH]; simpl; [reflexivity |].
    rewrite <- IH. unfold format_segment.
    rewrite !append_assoc. reflexivity.
  - apply read_int_pct_d.
  - intros z. apply trunc_inject_Z.
Qed.

(** C3 as stated fails on fractional endpoints: for the segment
    [[1.5, 2.5)] the file receives the line ["1 2"], and the integer read
    back from a column is not always the endpoint it was written for. *)
Lemma write_segments_fractional :
  write_segments [(PFloat (3 # 2), PFloat (5 # 2))] "segments.txt" ∅
    !! "segments.txt" = Some ("1 2" +:+ newline)
  ∧ ¬ (∀ x : num, ∃ z : Z,
         read_int (pct_d x) = Some z ∧ inject_Z z == value x).
Proof.
  split; [vm_compute; reflexivity |].
  intros H. destruct (H (PFloat (3 # 2))) as (z & Hz & Heq).
  vm_compute in Hz. injection Hz as <-. vm_compute in Heq. discriminate.
Qed.

End SegmentsFacts.


Module CondorFacts.
Import Condor StringFacts.
Local Open Scope string_scope.

(** *** Strings *)

Lemma strip_prefix_append (p s : string) : strip_prefix p (p +:+ s) = Some s.
Proof.
  induction p as [| c p IH]; simpl_append; simpl; [reflexivity |].
  rewrite Ascii.eqb_refl. exact IH.
Qed.

Lemma strip_prefix_Some (p s r : string) :
  strip_prefix p s = Some r → s = p +:+ r.
Proof.
  revert s. induction p as [| c p IH]; intros s; simpl.
  - intros [= ->]. reflexivity.
  - destruct s as [| b s]; [discriminate |].
    destruct (Ascii.eqb c b) eqn:Hcb; [| discriminate].
    apply Ascii.eqb_eq in Hcb as ->. intros H. rewrite (IH _ H). reflexivity.
Qed.

Lemma starts_with_append (p x : string) : starts_with p (p +:+ x) = true.
Proof. unfold starts_with. rewrite strip_prefix_append. reflexivity. Qed.

Lemma starts_with_append_r (p s x : string) :
  starts_with p s = true → starts_with p (s +:+ x) = true.
Proof.
  unfold starts_with.
  destruct (strip_prefix p s) as [r |] eqn:H; [| discriminate].
  apply strip_prefix_Some in H as ->. intros _.
  rewrite append_assoc, strip_prefix_append. reflexivity.
Qed.

(** *** Digits *)

Lemma take_digits_spec (s digits rest : string) :
  take_digits s = (digits, rest) →
  s = digits +:+ rest ∧ all_digits digits = true ∧ leading_digit rest = false.
Proof.
  revert digits rest. induction s as [| c s IH]; simpl; intros digits rest.
  - intros [= <- <-]. repeat split.
  - destruct (is_digit c) eqn:Hc.
    + destruct (take_digits s) as [d r]. intros [= <- <-].
      destruct (IH d r eq_refl) as (-> & Hd & Hr).
      split; [reflexivity | split; [| exact Hr]].
      simpl. rewrite Hc, Hd. reflexivity.
    + intros [= <- <-]. split; [reflexivity | split; [reflexivity | exact Hc]].
Qed.

(** A run of digits is taken whole, with the digits that follow it. *)
Lemma take_digits_append (digits s : string) :
  all_digits digits = true →
  take_digits (digits +:+ s)
  = (digits +:+ (take_digits s).1, (take_digits s).2).
Proof.
  induction digits as [| c digits IH]; simpl_append; simpl; intros H.
  - destruct (take_digits s); reflexivity.
  - apply andb_true_iff in H as [Hc Hd]. rewrite Hc, (IH Hd). reflexivity.
Qed.

(** *** [submit_dag] *)

Lemma match_here_pattern (n cluster post : string) :
  n ≠ EmptyString → all_digits n = true →
  cluster ≠ EmptyString → all_digits cluster = true →
  ∃ c : Z, match_here (n +:+ submitted_to_cluster +:+ cluster +:+ post) = Some c.
Proof.
  intros Hn Hdn Hc Hdc. unfold match_here.
  rewrite (take_digits_append n _ Hdn).
  change (take_digits (submitted_to_cluster +:+ cluster +:+ post))
    with (EmptyString, submitted_to_cluster +:+ cluster +:+ post).
  cbn [fst snd]. rewrite append_empty_r.
  destruct n as [| a n]; [contradiction |].
  rewrite strip_prefix_append, (take_digits_append cluster _ Hdc).
  destruct cluster as [| b cluster]; [contradiction |].
  simpl. eexists. reflexivity.
Qed.

Lemma match_here_sound (s : string) (c : Z) :
  match_here s = Some c →
  ∃ n cluster post : string,
    whole_pattern_at s EmptyString n cluster post
    ∧ c = int_of_digits 0 cluster.
Proof.
  unfold match_here.
  destruct (take_digits s) as [n rest] eqn:Hn.
  destruct n as [| a n]; [discriminate |].
  destruct (strip_prefix submitted_to_cluster rest) as [rest' |] eqn:Hrest;
    [| discriminate].
  destruct (take_digits rest') as [cluster post] eqn:Hc.
  destruct cluster as [| b cluster]; [discriminate |].
  intros [= <-].
  apply take_digits_spec in Hn as (-> & Hdn & _).
  apply strip_prefix_Some in Hrest as ->.
  apply take_digits_spec in Hc as (-> & Hdc & Hpost).
  exists (String a n), (String b cluster), post.
  split; [| reflexivity].
  unfold whole_pattern_at, pattern_at.
  repeat split; try assumption; discriminate.
Qed.

Lemma scan_cluster_id_sound (out : string) (c : Z) :
  scan_cluster_id out = Some c →
  ∃ pre n cluster post : string,
    whole_pattern_at out pre n cluster post ∧ c = int_of_digits 0 cluster.
Proof.
  induction out as [| a out IH].
  - intros H. vm_compute in H. discriminate.
  - cbn [scan_cluster_id].
    destruct (match_here (String a out)) eqn:Hm.
    + intros [= <-]. exists EmptyString. apply match_here_sound, Hm.
    + intros H. destruct (IH H) as (pre & n & cluster & post & Hp & ->).
      exists (String a pre), n, cluster, post. split; [| reflexivity].
      destruct Hp as ((-> & Hrest) & Hpost).
      split; [split; [reflexivity | exact Hrest] | exact Hpost].
Qed.

Lemma scan_cluster_id_complete (out : string) :
  has_pattern out → ∃ c : Z, scan_cluster_id out = Some c.
Proof.
  intros (pre & n & cluster & post & -> & Hn & Hdn & Hc & Hdc).
  induction pre as [| a pre IH].
  - destruct (match_here_pattern n cluster post Hn Hdn Hc Hdc) as [c Hm].
    exists c. simpl_append.
    destruct (n +:+ submitted_to_cluster +:+ cluster +:+ post);
      cbn [scan_cluster_id]; rewrite Hm; reflexivity.
  - simpl_append. cbn [scan_cluster_id].
    destruct (match_here _) as [c |]; [exists c; reflexivity | exact IH].
Qed.

(** C6.  [submit_dag] runs the executable with the extra arguments and
    then the DAG path.  When the output holds the pattern
    ["<N> job(s) submitted to cluster <ClusterID>"] it returns the number
    that a [<ClusterID>] of the output denotes, read to its last digit:
    12345 for
    ["1 job(s) submitted to cluster 12345"]; when the pattern is absent it
    fails with a [ParseError] whose message starts with
    ["Failed to extract DAG cluster ID"]. *)
Theorem submit_dag_cluster_id
    (executable : string) (check_output : list string → string)
    (detail : string → string) (dag_path : string) (extra_args : list string) :
  let out := check_output (executable :: extra_args ++ [dag_path]) in
  (has_pattern out →
   ∃ pre n cluster post : string,
     whole_pattern_at out pre n cluster post
     ∧ submit_dag executable check_output detail dag_path extra_args
       = Ok (int_of_digits 0 cluster))
  ∧ (¬ has_pattern out →
     ∃ message : string,
       submit_dag executable check_output detail dag_path extra_args
       = Raise (ParseError message)
       ∧ starts_with "Failed to extract DAG cluster ID" message = true)
  ∧ (out = "1 job(s) submitted to cluster 12345" →
     submit_dag executable check_output detail dag_path extra_args = Ok 12345%Z).
Proof.
  intros out. unfold submit_dag. fold out. split; [| split].
  - intros Hp. destruct (scan_cluster_id_complete out Hp) as [c Hc].
    rewrite Hc.
    destruct (scan_cluster_id_sound out c Hc)
      as (pre & n & cluster & post & Hpat & ->).
    exists pre, n, cluster, post. split; [exact Hpat | reflexivity].
  - intros Hno. destruct (scan_cluster_id out) as [c |] eqn:Hc.
    + exfalso. apply Hno.
      destruct (scan_cluster_id_sound out c Hc)
        as (pre & n & cluster & post & [Hpat _] & _).
      exists pre, n, cluster, post. exact Hpat.
    + eexists. split; [reflexivity | apply starts_with_append].
  - intros ->. vm_compute. reflexivity.
Qed.

Lemma submit_dag_cluster_id_witness :
  submit_dag "condor_submit_dag"
    (λ _, "1 job(s) submitted to cluster 12345") (λ out, out) "test.dag" []
  = Ok 12345%Z
  ∧ ∃ message : string,
      submit_dag "condor_submit_dag" (λ _, "Something else") (λ out, out)
        "test.dag" []
      = Raise (ParseError message)
      ∧ starts_with "Failed to extract DAG cluster ID" message = true.
Proof.
  split.
  - apply (submit_dag_cluster_id "condor_submit_dag"
             (λ _, "1 job(s) submitted to cluster 12345") (λ out, out)
             "test.dag" []).
    reflexivity.
  - apply (submit_dag_cluster_id "condor_submit_dag"
             (λ _, "Something else") (λ out, out) "test.dag" []).
    intros Hp. destruct (scan_cluster_id_complete _ Hp) as [c Hc].
    vm_compute in Hc. discriminate.
Defined.

(** *** [find_job] *)

(** C7.  [find_jobs] returns the jobs of the scheduler that satisfy every
    equality filter.  [find_job] returns the matching job when exactly one
    job matches, fails with a [NotFoundError] whose message starts with
    ["No jobs found"] when none does, and with an [AmbiguousResultError]
    whose message starts with ["Multiple jobs found"] when two or more
    do. *)
Theorem find_job_unique
    (schedd : list (gmap string attribute))
    (detail : gmap string attribute → string)
    (filters : gmap string attribute) :
  (∀ job : gmap string attribute,
     job ∈ find_jobs schedd filters ↔
     job ∈ schedd
     ∧ ∀ (name : string) (v : attribute),
         filters !! name = Some v → job !! name = Some v)
  ∧ (length (find_jobs schedd filters) = 1%nat →
     ∃ job : gmap string attribute,
       find_jobs schedd filters = [job]
       ∧ find_job schedd detail filters = Ok job)
  ∧ (length (find_jobs schedd filters) = 0%nat →
     ∃ message : string,
       find_job schedd detail filters = Raise (NotFoundError message)
       ∧ starts_with "No jobs found" message = true)
  ∧ ((2 <= length (find_jobs schedd filters))%nat →
     ∃ message : string,
       find_job schedd detail filters = Raise (AmbiguousResultError message)
       ∧ starts_with "Multiple jobs found" message = true).
Proof.
  split; [| split; [| split]].
  - intros job. unfold find_jobs. rewrite list_elem_of_filter.
    unfold satisfies, map_Forall. tauto.
  - unfold find_job. destruct (find_jobs schedd filters) as [| j [| j' l]];
      simpl; intros H; try lia.
    exists j. split; reflexivity.
  - unfold find_job. destruct (find_jobs schedd filters) as [| j [| j' l]];
      simpl; intros H; try lia.
    eexists. split; [reflexivity | apply starts_with_append].
  - unfold find_job. destruct (find_jobs schedd filters) as [| j [| j' l]];
      simpl; intros H; try lia.
    eexists. split; [reflexivity | apply starts_with_append].
Qed.

Lemma find_job_unique_witness :
  (∃ job : gmap string attribute,
     find_jobs test_schedd {["ClusterId" := AInt 1]} = [job]
     ∧ find_job test_schedd (λ _, EmptyString) {["ClusterId" := AInt 1]}
       = Ok job)
  ∧ (∃ message : string,
       find_job test_schedd (λ _, EmptyString) {["ClusterId" := AInt 3]}
       = Raise (NotFoundError message)
       ∧ starts_with "No jobs found" message = true)
  ∧ (∃ message : string,
       find_job test_schedd (λ _, EmptyString) ∅
       = Raise (AmbiguousResultError message)
       ∧ starts_with "Multiple jobs found" message = true).
Proof.
  split; [| split].
  - apply (find_job_unique test_schedd (λ _, EmptyString)
             {["ClusterId" := AInt 1]}).
    vm_compute. reflexivity.
  - apply (find_job_unique test_schedd (λ _, EmptyString)
             {["ClusterId" := AInt 3]}).
    vm_compute. reflexivity.
  - apply (find_job_unique test_schedd (λ _, EmptyString) ∅).
    vm_compute. lia.
Defined.

(** *** Submission descriptors *)

Lemma split_lines_nonempty (content : string) : split_lines content ≠ [].
Proof.
  destruct content as [| c content]; simpl; [discriminate |].
  destruct (Ascii.eqb c LF); [discriminate |].
  destruct (split_lines content); discriminate.
Qed.

(** Joining the lines of a text gives the text back. *)
Lemma join_split_lines (content : string) :
  join_lines (split_lines content) = content.
Proof.
  induction content as [| c content IH]; [reflexivity |].
  cbn [split_lines]. destruct (Ascii.eqb c LF) eqn:Hc.
  - apply Ascii.eqb_eq in Hc as ->.
    pose proof (split_lines_nonempty content) as Hne.
    destruct (split_lines content) as [| line rest]; [contradiction |].
    cbn [join_lines]. simpl_append. rewrite <- IH. reflexivity.
  - pose proof (split_lines_nonempty content) as Hne.
    destruct (split_lines content) as [| line rest]; [contradiction |].
    rewrite <- IH. destruct rest; cbn [join_lines]; simpl_append; reflexivity.
Qed.

(** The lines of the directives, in order, are the lines. *)
Lemma concat_directives (lines : list string) :
  concat (directives lines) = lines.
Proof.
  induction lines as [| line rest IH]; [reflexivity |].
  cbn [directives]. destruct (directives rest) as [| d ds].
  - simpl in IH. subst rest. reflexivity.
  - destruct (continued line); simpl in *; rewrite IH; reflexivity.
Qed.

Lemma sets_arguments_open (current : string) (rest : list string) :
  sets "arguments" ((arguments_open +:+ current) :: rest) = true.
Proof.
  unfold sets, arguments_open. rewrite append_assoc.
  apply (starts_with_append "arguments = ").
Qed.

(** The override leaves alone what is not an [arguments] directive, and
    keeps an [arguments] directive one. *)
Lemma override_arguments_untargeted (command : string) (d : directive) :
  untargeted d = true → override_arguments command d = d.
Proof.
  destruct d as [| line rest]; [reflexivity |]. unfold override_arguments.
  destruct (strip_prefix arguments_open line) as [current |] eqn:H;
    [| reflexivity].
  apply strip_prefix_Some in H as ->. unfold untargeted.
  rewrite sets_arguments_open. discriminate.
Qed.

Lemma override_arguments_targeted (command : string) (d : directive) :
  untargeted d = false → untargeted (override_arguments command d) = false.
Proof.
  destruct d as [| line rest]; [intros H; exact H |]. unfold override_arguments.
  destruct (strip_prefix arguments_open line) as [current |] eqn:H;
    [| intros K; exact K].
  intros _. unfold untargeted.
  rewrite sets_arguments_open. reflexivity.
Qed.

Lemma filter_override_arguments (command : string) (ds : list directive) :
  List.filter untargeted (map (override_arguments command) ds)
  = List.filter untargeted ds.
Proof.
  induction ds as [| d ds IH]; [reflexivity |]. simpl.
  destruct (untargeted d) eqn:Hd.
  - rewrite (override_arguments_untargeted _ _ Hd), Hd, IH. reflexivity.
  - rewrite (override_arguments_targeted _ _ Hd), IH. reflexivity.
Qed.

Lemma sets_require_singularity (key : string) (d : directive) :
  sets key d = true → sets key (require_singularity d) = true.
Proof.
  destruct d as [| line [| line' d']]; simpl; [discriminate | | tauto].
  apply starts_with_append_r.
Qed.

Lemma untargeted_requirements (d : directive) :
  sets "Requirements" d = true → untargeted d = false.
Proof.
  intros H. unfold untargeted. rewrite H, orb_true_r. reflexivity.
Qed.

Lemma filter_extend_requirements (ds ds' : list directive) :
  extend_requirements ds = Some ds' →
  List.filter untargeted ds' = List.filter untargeted ds.
Proof.
  revert ds'. induction ds as [| d ds IH]; intros ds'; [discriminate |].
  cbn [extend_requirements].
  destruct (sets "Requirements" d) eqn:Hd.
  - intros [= <-]. simpl.
    rewrite (untargeted_requirements _ Hd).
    rewrite (untargeted_requirements _ (sets_require_singularity _ _ Hd)).
    reflexivity.
  - destruct (extend_requirements ds) as [ds1 |]; [| discriminate].
    intros [= <-]. simpl. rewrite (IH ds1 eq_refl). reflexivity.
Qed.

Lemma filter_add_singularity (image : string) (ds : list directive) :
  List.filter untargeted (add_singularity image ds) = List.filter untargeted ds.
Proof.
  unfold add_singularity.
  assert (untargeted ["+SingularityImage = " +:+ image] = false) as Hfirst.
  { unfold untargeted.
    assert (sets "+SingularityImage" ["+SingularityImage = " +:+ image] = true)
      as -> by apply (starts_with_append "+SingularityImage = ").
    rewrite orb_true_r. reflexivity. }
  cbn [List.filter]. rewrite Hfirst.
  destruct (extend_requirements ds) as [ds' |] eqn:H.
  - apply filter_extend_requirements, H.
  - reflexivity.
Qed.

(** *** The text of a patched descriptor *)

Lemma continued_append (a b : string) :
  continued (a +:+ b)
  = match b with EmptyString => continued a | String _ _ => continued b end.
Proof.
  induction a as [| c a IH]; simpl_append.
  - destruct b; reflexivity.
  - destruct a as [| c' a]; simpl_append.
    + destruct b; reflexivity.
    + rewrite append_cons in IH. cbn [continued] in *. rewrite IH.
      destruct b; reflexivity.
Qed.

Lemma single_line_append (a b : string) :
  single_line (a +:+ b) = single_line a && single_line b.
Proof.
  induction a as [| c a IH]; simpl_append; [reflexivity |].
  cbn [single_line]. rewrite IH, andb_assoc. reflexivity.
Qed.

Lemma split_lines_single (s : string) :
  single_line s = true → split_lines s = [s].
Proof.
  induction s as [| c s IH]; [reflexivity |]. cbn [single_line split_lines].
  intros H. apply andb_true_iff in H as [Hc Hs].
  apply negb_true_iff in Hc. rewrite Hc, (IH Hs). reflexivity.
Qed.

Lemma split_lines_app (a b : string) :
  single_line a = true → split_lines (a +:+ String LF b) = a :: split_lines b.
Proof.
  induction a as [| c a IH]; simpl_append.
  - intros _. cbn [split_lines]. rewrite Ascii.eqb_refl. reflexivity.
  - cbn [single_line split_lines]. intros H.
    apply andb_true_iff in H as [Hc Ha].
    apply negb_true_iff in Hc. rewrite Hc, (IH Ha). reflexivity.
Qed.

(** The lines of the text of a list of lines are those lines. *)
Lemma split_join_lines (lines : list string) :
  single_lines lines → lines ≠ [] →
  split_lines (join_lines lines) = lines.
Proof.
  induction 1 as [| line rest Hline Hrest IH]; [contradiction |]. intros _.
  destruct rest as [| line' rest].
  - apply split_lines_single, Hline.
  - change (join_lines (line :: line' :: rest))
      with (line +:+ String LF (join_lines (line' :: rest))).
    rewrite (split_lines_app _ _ Hline), IH by discriminate. reflexivity.
Qed.

Lemma single_line_split_lines (content : string) :
  single_lines (split_lines content).
Proof.
  induction content as [| c content IH]; [repeat constructor |].
  cbn [split_lines]. destruct (Ascii.eqb c LF) eqn:Hc.
  - constructor; [reflexivity | exact IH].
  - destruct (split_lines content) as [| line rest].
    + repeat constructor. cbn [single_line]. rewrite Hc. reflexivity.
    + apply Forall_cons in IH as [Hline Hrest]. constructor; [| exact Hrest].
      cbn [single_line]. rewrite Hc, Hline. reflexivity.
Qed.

(** **** The shape of the directives *)

Lemma closed_cons (line : string) (d : directive) :
  d ≠ [] → closed (line :: d) = continued line && closed d.
Proof. destruct d; [contradiction | reflexivity]. Qed.

Lemma unended_cons (line : string) (d : directive) :
  d ≠ [] → unended (line :: d) = continued line && unended d.
Proof. destruct d; [contradiction | reflexivity]. Qed.

Lemma shaped_nonempty (d : directive) : closed d || unended d = true → d ≠ [].
Proof. destruct d; [discriminate | discriminate]. Qed.

Lemma grouped_cons (d : directive) (ds : list directive) :
  closed d = true → grouped ds = true → grouped (d :: ds) = true.
Proof.
  intros Hd Hds. destruct ds as [| d' ds]; cbn [grouped].
  - rewrite Hd. reflexivity.
  - rewrite Hd. exact Hds.
Qed.

Lemma grouped_inv (d : directive) (ds : list directive) :
  grouped (d :: ds) = true →
  closed d || unended d = true
  ∧ (ds ≠ [] → closed d = true ∧ grouped ds = true).
Proof.
  destruct ds as [| d' ds]; cbn [grouped].
  - intros H. split; [exact H | contradiction].
  - intros H. apply andb_true_iff in H as [Hd Hds].
    split; [rewrite Hd; reflexivity | intros _; split; assumption].
Qed.

Lemma directives_grouped (lines : list string) :
  grouped (directives lines) = true.
Proof.
  induction lines as [| line rest IH]; [reflexivity |]. cbn [directives].
  destruct (directives rest) as [| d ds].
  - cbn [grouped closed unended]. destruct (continued line); reflexivity.
  - apply grouped_inv in IH as [Hd Hds].
    pose proof (shaped_nonempty d Hd) as Hne.
    destruct (continued line) eqn:Hc.
    + destruct ds as [| d' ds].
      * cbn [grouped]. rewrite closed_cons, unended_cons, Hc by exact Hne.
        exact Hd.
      * destruct (Hds ltac:(discriminate)) as [Hclosed Hrest].
        change (closed (line :: d) && grouped (d' :: ds) = true).
        rewrite closed_cons, Hc, Hclosed by exact Hne. exact Hrest.
    + apply grouped_cons; [cbn [closed]; rewrite Hc; reflexivity |].
      destruct ds as [| d' ds]; [exact Hd |].
      destruct (Hds ltac:(discriminate)) as [Hclosed Hrest].
      change (closed d && grouped (d' :: ds) = true).
      rewrite Hclosed. exact Hrest.
Qed.

Lemma directives_shaped (d : directive) :
  closed d || unended d = true → directives d = [d].
Proof.
  induction d as [| line d IH]; [discriminate |].
  destruct d as [| line' d]; [reflexivity |].
  rewrite closed_cons, unended_cons, <- andb_orb_distrib_r by discriminate.
  intros H. apply andb_true_iff in H as [Hc Hd].
  change (directives (line :: line' :: d))
    with (match directives (line' :: d) with
          | d0 :: ds => if continued line then (line :: d0) :: ds
                        else [line] :: d0 :: ds
          | [] => [[line]]
          end).
  rewrite (IH Hd), Hc. reflexivity.
Qed.

Lemma directives_app_closed (d : directive) (rest : list string) :
  closed d = true → directives (d ++ rest) = d :: directives rest.
Proof.
  induction d as [| line d IH]; [discriminate |].
  destruct d as [| line' d].
  - cbn [closed]. intros Hc. apply negb_true_iff in Hc.
    cbn [app directives]. rewrite Hc. destruct (directives rest); reflexivity.
  - rewrite closed_cons by discriminate. intros H.
    apply andb_true_iff in H as [Hc Hd].
    change (directives ((line :: line' :: d) ++ rest))
      with (match directives ((line' :: d) ++ rest) with
            | d0 :: ds => if continued line then (line :: d0) :: ds
                          else [line] :: d0 :: ds
            | [] => [[line]]
            end).
    rewrite (IH Hd), Hc. reflexivity.
Qed.

(** Grouping the lines of grouped directives gives the directives back. *)
Lemma directives_concat (ds : list directive) :
  grouped ds = true → directives (concat ds) = ds.
Proof.
  induction ds as [| d ds IH]; [reflexivity |]. intros H.
  apply grouped_inv in H as [Hd Hds]. destruct ds as [| d' ds].
  - cbn [concat]. rewrite app_nil_r. apply directives_shaped, Hd.
  - destruct (Hds ltac:(discriminate)) as [Hclosed Hrest].
    cbn [concat] in *. rewrite (directives_app_closed _ _ Hclosed).
    rewrite (IH Hrest). reflexivity.
Qed.

Lemma grouped_concat_nonempty (ds : list directive) :
  grouped ds = true → ds ≠ [] → concat ds ≠ [].
Proof.
  destruct ds as [| d ds]; [contradiction |]. intros H _.
  apply grouped_inv in H as [Hd _]. apply shaped_nonempty in Hd.
  destruct d; [contradiction | discriminate].
Qed.

(** **** The shape of the patched directives *)

Lemma closed_head (line line' : string) (d : directive) :
  continued line' = continued line → closed (line' :: d) = closed (line :: d).
Proof. intros H. destruct d; cbn [closed]; rewrite H; reflexivity. Qed.

Lemma unended_head (line line' : string) (d : directive) :
  continued line' = continued line →
  unended (line' :: d) = unended (line :: d).
Proof. intros H. destruct d; cbn [unended]; rewrite H; reflexivity. Qed.

(** The override does not change whether the line goes on in the next. *)
Lemma continued_override (command current : string) :
  continued command = false →
  continued (arguments_open +:+ " " +:+ command +:+ current)
  = continued (arguments_open +:+ current).
Proof.
  intros Hc. rewrite !continued_append.
  destruct current as [| c current].
  - rewrite append_empty_r. simpl_append.
    destruct command; [reflexivity |]. exact Hc.
  - simpl_append. destruct command; simpl_append; reflexivity.
Qed.

Lemma override_arguments_shape (command : string) (d : directive) :
  continued command = false →
  closed (override_arguments command d) = closed d
  ∧ unended (override_arguments command d) = unended d.
Proof.
  intros Hc. destruct d as [| line rest]; [split; reflexivity |].
  unfold override_arguments.
  destruct (strip_prefix arguments_open line) as [current |] eqn:H;
    [| split; reflexivity].
  apply strip_prefix_Some in H as ->.
  split; [apply closed_head | apply unended_head];
    apply continued_override, Hc.
Qed.

Lemma grouped_override (command : string) (ds : list directive) :
  continued command = false →
  grouped (map (override_arguments command) ds) = grouped ds.
Proof.
  intros Hc. induction ds as [| d ds IH]; [reflexivity |].
  destruct (override_arguments_shape command d Hc) as [H1 H2].
  destruct ds as [| d' ds].
  - cbn [map grouped]. rewrite H1, H2. reflexivity.
  - change (closed (override_arguments command d)
            && grouped (map (override_arguments command) (d' :: ds))
            = closed d && grouped (d' :: ds)).
    rewrite H1, IH. reflexivity.
Qed.

Lemma require_singularity_nonempty (d : directive) :
  d ≠ [] → require_singularity d ≠ [].
Proof.
  destruct d as [| line [| line' d]]; [contradiction | discriminate..].
Qed.

Lemma closed_require_singularity (d : directive) :
  closed d || unended d = true → closed (require_singularity d) = true.
Proof.
  induction d as [| line d IH]; [discriminate |].
  destruct d as [| line' d].
  - intros _. cbn [require_singularity closed].
    rewrite continued_append. reflexivity.
  - rewrite closed_cons, unended_cons, <- andb_orb_distrib_r by discriminate.
    intros H. apply andb_true_iff in H as [Hc Hd].
    change (require_singularity (line :: line' :: d))
      with (line :: require_singularity (line' :: d)).
    rewrite closed_cons by (apply require_singularity_nonempty; discriminate).
    rewrite Hc, (IH Hd). reflexivity.
Qed.

Lemma grouped_extend_requirements (ds ds' : list directive) :
  extend_requirements ds = Some ds' → grouped ds = true → grouped ds' = true.
Proof.
  revert ds'. induction ds as [| d ds IH]; intros ds'; [discriminate |].
  cbn [extend_requirements]. destruct (sets "Requirements" d).
  - intros [= <-] H. apply grouped_inv in H as [Hd Hds].
    pose proof (closed_require_singularity d Hd) as Hclosed.
    destruct ds as [| d' ds]; [cbn [grouped]; rewrite Hclosed; reflexivity |].
    apply grouped_cons; [exact Hclosed | apply Hds; discriminate].
  - destruct (extend_requirements ds) as [ds1 |] eqn:Hext; [| discriminate].
    intros [= <-] H. apply grouped_inv in H as [_ Hds].
    destruct ds as [| d' ds]; [discriminate |].
    destruct (Hds ltac:(discriminate)) as [Hclosed Hrest].
    apply grouped_cons; [exact Hclosed | apply (IH ds1 eq_refl Hrest)].
Qed.

Lemma grouped_add_singularity (image : string) (ds : list directive) :
  continued image = false → grouped ds = true →
  grouped (add_singularity image ds) = true.
Proof.
  intros Hc Hds. unfold add_singularity. apply grouped_cons.
  - cbn [closed]. rewrite continued_append.
    destruct image; [reflexivity |]. rewrite Hc. reflexivity.
  - destruct (extend_requirements ds) as [ds' |] eqn:Hext.
    + apply (grouped_extend_requirements ds ds' Hext Hds).
    + apply grouped_cons; [reflexivity | exact Hds].
Qed.

Lemma plain_Some (s : string) :
  plain (Some s) = true → single_line s = true ∧ continued s = false.
Proof.
  cbn [plain]. intros H. apply andb_true_iff in H as [H1 H2].
  apply negb_true_iff in H2. split; assumption.
Qed.

Lemma grouped_patch (command image : option string) (ds : list directive) :
  plain command = true → plain image = true → grouped ds = true →
  grouped (patch_directives command image ds) = true.
Proof.
  intros Hcommand Himage Hds. unfold patch_directives.
  assert (grouped match command with
                  | Some c => map (override_arguments c) ds
                  | None => ds
                  end = true) as H1.
  { destruct command as [c |]; [| exact Hds].
    rewrite grouped_override; [exact Hds | apply plain_Some, Hcommand]. }
  destruct image as [path |]; [| exact H1].
  apply grouped_add_singularity; [apply plain_Some, Himage | exact H1].
Qed.

(** **** The lines of the patched directives hold no newline *)

Lemma single_lines_override (command : string) (d : directive) :
  single_line command = true →
  single_lines d → single_lines (override_arguments command d).
Proof.
  intros Hc Hd. destruct d as [| line rest]; [exact Hd |].
  unfold override_arguments.
  destruct (strip_prefix arguments_open line) as [current |] eqn:H;
    [| exact Hd].
  apply strip_prefix_Some in H as ->.
  apply Forall_cons in Hd as [Hline Hrest]. constructor; [| exact Hrest].
  rewrite single_line_append in Hline.
  apply andb_true_iff in Hline as [_ Hcurrent].
  rewrite !single_line_append, Hc, Hcurrent. reflexivity.
Qed.

Lemma single_lines_require_singularity (d : directive) :
  single_lines d → single_lines (require_singularity d).
Proof.
  induction d as [| line d IH]; [intros H; exact H |]. intros H.
  apply Forall_cons in H as [Hline Hd]. destruct d as [| line' d].
  - cbn [require_singularity]. repeat constructor.
    rewrite single_line_append, Hline. reflexivity.
  - change (require_singularity (line :: line' :: d))
      with (line :: require_singularity (line' :: d)).
    constructor; [exact Hline | apply IH, Hd].
Qed.

Lemma single_lines_extend_requirements (ds ds' : list directive) :
  extend_requirements ds = Some ds' →
  Forall single_lines ds → Forall single_lines ds'.
Proof.
  revert ds'. induction ds as [| d ds IH]; intros ds'; [discriminate |].
  cbn [extend_requirements]. destruct (sets "Requirements" d).
  - intros [= <-] H. apply Forall_cons in H as [Hd Hds].
    constructor; [apply single_lines_require_singularity, Hd | exact Hds].
  - destruct (extend_requirements ds) as [ds1 |]; [| discriminate].
    intros [= <-] H. apply Forall_cons in H as [Hd Hds].
    constructor; [exact Hd | apply (IH ds1 eq_refl Hds)].
Qed.

Lemma single_lines_patch (command image : option string)
    (ds : list directive) :
  plain command = true → plain image = true →
  Forall single_lines ds →
  Forall single_lines (patch_directives command image ds).
Proof.
  intros Hcommand Himage Hds. unfold patch_directives.
  assert (Forall single_lines
            match command with
            | Some c => map (override_arguments c) ds
            | None => ds
            end) as H1.
  { destruct command as [c |]; [| exact Hds].
    apply Forall_fmap. eapply Forall_impl; [exact Hds |].
    intros d Hd. apply single_lines_override; [| exact Hd].
    apply plain_Some, Hcommand. }
  destruct image as [path |]; [| exact H1].
  unfold add_singularity. constructor.
  - repeat constructor. rewrite single_line_append.
    destruct (plain_Some path Himage) as [-> _]. reflexivity.
  - destruct (extend_requirements _) as [ds' |] eqn:Hext.
    + apply (single_lines_extend_requirements _ ds' Hext H1).
    + constructor; [repeat constructor | exact H1].
Qed.

(** The directives of the patched text are the patched directives. *)
Lemma directives_patch_descriptor (command image : option string)
    (content : string) :
  plain command = true → plain image = true →
  directives (split_lines (patch_descriptor command image content))
  = patch_directives command image (directives (split_lines content)).
Proof.
  intros Hcommand Himage. unfold patch_descriptor.
  set (ds := directives (split_lines content)).
  assert (grouped ds = true) as Hgrouped by apply directives_grouped.
  assert (Forall single_lines ds) as Hsingle.
  { apply Forall_concat. unfold ds. rewrite concat_directives.
    apply single_line_split_lines. }
  assert (ds ≠ []) as Hne.
  { intros Hnil. pose proof (concat_directives (split_lines content)) as H.
    fold ds in H. rewrite Hnil in H.
    apply (split_lines_nonempty content). symmetry. exact H. }
  pose proof (grouped_patch command image ds Hcommand Himage Hgrouped) as Hg.
  pose proof (single_lines_patch command image ds Hcommand Himage Hsingle)
    as Hs.
  assert (patch_directives command image ds ≠ []) as Hne'.
  { unfold patch_directives, add_singularity.
    destruct image; [discriminate |].
    destruct command; [| exact Hne].
    destruct ds; [contradiction | discriminate]. }
  rewrite split_join_lines.
  - apply directives_concat, Hg.
  - apply Forall_concat, Hs.
  - apply grouped_concat_nonempty; assumption.
Qed.

(** C8.  With neither override the patch returns the content of the
    descriptor as it is, and [write_sub_file] leaves the file system as it
    is.  With any overrides, [write_sub_file] writes the patched descriptor
    back, and the directives other than [arguments], [Requirements] and
    [+SingularityImage] of the text it writes are those of the original
    text, line for line and in the same order; the overrides are taken to
    hold no newline and not to end with the continuation marker, so that
    they stay on the line they are put in. *)
Theorem patch_touches_targeted_only
    (command image : option string) (content subfile : string)
    (fs : gmap string string) :
  fs !! subfile = Some content →
  patch_descriptor None None content = content
  ∧ write_sub_file None None subfile fs = Some fs
  ∧ write_sub_file command image subfile fs
    = Some (<[subfile := patch_descriptor command image content]> fs)
  ∧ (plain command = true → plain image = true →
     List.filter untargeted
       (directives (split_lines (patch_descriptor command image content)))
     = List.filter untargeted (directives (split_lines content))).
Proof.
  intros Hfile.
  assert (patch_descriptor None None content = content) as Hsame.
  { unfold patch_descriptor, patch_directives.
    rewrite concat_directives. apply join_split_lines. }
  split; [exact Hsame | split; [| split]].
  - unfold write_sub_file.
    rewrite Hfile, Hsame, insert_id by exact Hfile. reflexivity.
  - unfold write_sub_file. rewrite Hfile. reflexivity.
  - intros Hcommand Himage.
    rewrite (directives_patch_descriptor _ _ _ Hcommand Himage).
    unfold patch_directives.
    destruct image as [path |], command as [c |];
      rewrite ?filter_add_singularity, ?filter_override_arguments; reflexivity.
Qed.

Lemma patch_touches_targeted_only_witness :
  patch_descriptor None None sub_one_req = sub_one_req
  ∧ write_sub_file None None "test.sub" {["test.sub" := sub_one_req]}
    = Some {["test.sub" := sub_one_req]}
  ∧ write_sub_file (Some "new arguments") (Some "image.sif") "test.sub"
      {["test.sub" := sub_one_req]}
    = Some (<["test.sub" := patch_descriptor (Some "new arguments")
                              (Some "image.sif") sub_one_req]>
              {["test.sub" := sub_one_req]})
  ∧ List.filter untargeted
      (directives
         (split_lines
            (patch_descriptor (Some "new arguments") (Some "image.sif")
               sub_one_req)))
    = List.filter untargeted (directives (split_lines sub_one_req)).
Proof.
  destruct (patch_touches_targeted_only (Some "new arguments")
              (Some "image.sif") sub_one_req "test.sub"
              {["test.sub" := sub_one_req]})
    as (Hsame & Hnone & Hwrite & Hkept); [vm_compute; reflexivity |].
  split; [exact Hsame | split; [exact Hnone | split; [exact Hwrite |]]].
  apply Hkept; reflexivity.
Defined.

(** The patch of [sub_one_req] with both overrides: the untargeted
    directives of the text written are the empty lines and the [universe]
    and [executable] lines of the original. *)
Example patch_sub_one_req_untargeted :
  plain (Some "new arguments") = true
  ∧ plain (Some "image.sif") = true
  ∧ List.filter untargeted
      (directives
         (split_lines
            (patch_descriptor (Some "new arguments") (Some "image.sif")
               sub_one_req)))
    = [[EmptyString]; ["universe = vanilla"];
       ["executable = /path/to/omicron"]; [EmptyString]; [EmptyString]].
Proof. vm_compute. repeat split. Qed.





(** *** The tests of [test_condor.py], run on the model *)

Example test_submit_dag :
  submit_dag "python" (λ _, "1 job(s) submitted to cluster 12345")
    (λ _, EmptyString) "test.dag" []
  = Ok 12345%Z.
Proof. vm_compute. reflexivity. Qed.

Example test_submit_dag_error :
  ∃ message : string,
    submit_dag "python" (λ _, "Something else") (λ out, ": " +:+ out)
      "test.dag" []
    = Raise (ParseError message)
    ∧ starts_with "Failed to extract DAG cluster ID" message = true.
Proof. eexists. split; vm_compute; reflexivity. Qed.

Example test_find_jobs :
  find_jobs test_schedd ∅ = test_schedd
  ∧ find_jobs test_schedd {["ClusterId" := AInt 1]} = [{["ClusterId" := AInt 1]}]
  ∧ find_jobs test_schedd {["ClusterId" := AInt 3]} = [].
Proof. repeat split; vm_compute; reflexivity. Qed.

Example test_find_job :
  find_job test_schedd (λ _, EmptyString) {["ClusterId" := AInt 1]}
  = Ok {["ClusterId" := AInt 1]}
  ∧ find_job test_schedd (λ _, EmptyString) {["ClusterId" := AInt 3]}
    = Raise (NotFoundError "No jobs found")
  ∧ find_job test_schedd (λ _, EmptyString) ∅
    = Raise (AmbiguousResultError "Multiple jobs found").
Proof. repeat split; vm_compute; reflexivity. Qed.

(** With an image and no [Requirements], the two new directives come
    first. *)
Example test_write_sub_file_no_reqs :
  patch_descriptor (Some "new arguments") (Some "image.sif") sub_no_reqs
  = join_lines
      [ "+SingularityImage = image.sif";
        "Requirements = HasSingularity";
        EmptyString;
        "universe = vanilla";
        "executable = /path/to/omicron";
        "arguments = " +:+ quoted " new argumentssome command";
        EmptyString ].
Proof. vm_compute. reflexivity. Qed.

(** A single requirement gets the new clause after it. *)
Example test_write_sub_file_one_req :
  patch_descriptor (Some "new arguments") (Some "image.sif") sub_one_req
  = join_lines
      [ "+SingularityImage = image.sif";
        EmptyString;
        "universe = vanilla";
        "executable = /path/to/omicron";
        "arguments = " +:+ quoted " new argumentssome command";
        EmptyString;
        "Requirements = TARGET.UidDomain == " +:+ quoted "cs.wisc.edu"
          +:+ " && " +:+ String backslash EmptyString;
        "               HasSingularity";
        EmptyString ].
Proof. vm_compute. reflexivity. Qed.

(** Requirements over several lines get the new clause after the last. *)
Example test_write_sub_file_multi_reqs :
  patch_descriptor (Some "new arguments") (Some "image.sif") sub_multi_reqs
  = join_lines
      [ "+SingularityImage = image.sif";
        EmptyString;
        "universe = vanilla";
        "executable = /path/to/omicron";
        "arguments = " +:+ quoted " new argumentssome command";
        EmptyString;
        "Requirements = TARGET.UidDomain == " +:+ quoted "cs.wisc.edu"
          +:+ " && " +:+ String backslash EmptyString;
        "               TARGET.FileSystemDomain == " +:+ quoted "cs.wisc.edu"
          +:+ " && " +:+ String backslash EmptyString;
        "               HasSingularity";
        EmptyString ].
Proof. vm_compute. reflexivity. Qed.

End CondorFacts.

(** ** More on omicron/segments.py *)

Module IntegerSegmentsFacts.
Import Segments SegmentFile SegmentsFacts.
Local Open Scope Q_scope.

Lemma Segment_well_formed (a b : num) : well_formed (Segment a b).
Proof.
  unfold Segment, well_formed.
  destruct (Qle_bool (value a) (value b)) eqn:H; simpl.
  - apply Qle_bool_iff, H.
  - destruct (Qlt_le_dec (value b) (value a)) as [K | K].
    + apply Qlt_le_weak, K.
    + apply Qle_bool_iff in K. congruence.
Qed.

(** Whatever the pair, [int_segment] gives ordered integer endpoints. *)
Lemma int_segment_integral (s : segment) :
  ∃ a b : Z, int_segment s = (PInt a, PInt b) ∧ (a <= b)%Z.
Proof.
  pose proof (Segment_well_formed (PInt (int s.1)) (PInt (int s.2))) as Hw.
  unfold int_segment in *. unfold Segment in *.
  destruct (Qle_bool _ _); unfold well_formed in Hw; simpl in Hw;
    rewrite <- Zle_Qle in Hw; eauto.
Qed.

Lemma int_segment_fixed (a b : Z) :
  (a <= b)%Z → int_segment (PInt a, PInt b) = (PInt a, PInt b).
Proof.
  intros H. apply int_segment_eq. unfold well_formed. simpl.
  rewrite <- Zle_Qle. exact H.
Qed.

Lemma int_segment_idempotent (s : segment) :
  int_segment (int_segment s) = int_segment s.
Proof.
  destruct (int_segment_integral s) as (a & b & -> & Hab).
  apply int_segment_fixed, Hab.
Qed.

(** X1.  Decorating twice is decorating once, as when [get_frame_segments],
    decorated, returns what the decorated [cache_segments] gave it. *)
Theorem integer_segments_idempotent {A : Type}
    (f : A → option SegmentList) (args : A) :
  integer_segments (integer_segments f) args = integer_segments f args.
Proof.
  unfold integer_segments. destruct (f args) as [segs |]; [| reflexivity].
  f_equal. rewrite map_map. apply map_ext. apply int_segment_idempotent.
Qed.

(** X2.  What a decorated function returns has integer endpoints, in order, in
    every segment. *)
Theorem integer_segments_integral {A : Type}
    (f : A → option SegmentList) (args : A) (out : SegmentList) :
  integer_segments f args = Some out →
  Forall (λ s, ∃ a b : Z, s = (PInt a, PInt b) ∧ (a <= b)%Z) out.
Proof.
  unfold integer_segments. destruct (f args) as [segs |]; [| discriminate].
  intros [= <-]. apply Forall_forall. intros s Hs.
  apply list_elem_of_fmap in Hs as (r & -> & _).
  apply int_segment_integral.
Qed.

Lemma integer_segments_integral_witness :
  Forall (λ s, ∃ a b : Z, s = (PInt a, PInt b) ∧ (a <= b)%Z)
    [(PInt 1, PInt 2); (PInt 2, PInt 4)].
Proof.
  apply (integer_segments_integral
           (λ _ : unit, Some two_fractional_segments) ()).
  vm_compute. reflexivity.
Defined.

(** X3.  On segments whose endpoints are integers already, the decorator changes
    nothing. *)
Theorem integer_segments_identity {A : Type}
    (f : A → option SegmentList) (args : A) (segs : SegmentList) :
  f args = Some segs →
  Forall well_formed segs → Forall integral segs →
  integer_segments f args = Some segs.
Proof.
  intros Hf Hwf Hint. unfold integer_segments. rewrite Hf. f_equal.
  clear Hf. induction segs as [| s segs IH]; [reflexivity |].
  apply Forall_cons in Hwf as [Hs Hwf]. apply Forall_cons in Hint as [Hi Hint].
  simpl. rewrite (IH Hwf Hint). f_equal.
  destruct Hi as (a & b & ->). apply int_segment_fixed.
  unfold well_formed in Hs. simpl in Hs. rewrite <- Zle_Qle in Hs. exact Hs.
Qed.

Lemma integer_segments_identity_witness :
  integer_segments (λ _ : unit, Some [(PInt 1, PInt 9); (PInt 9, PInt 17)]) ()
  = Some [(PInt 1, PInt 9); (PInt 9, PInt 17)].
Proof.
  apply (integer_segments_identity
           (λ _ : unit, Some [(PInt 1, PInt 9); (PInt 9, PInt 17)]) ()).
  - reflexivity.
  - repeat constructor; vm_compute; discriminate.
  - repeat constructor; eexists _, _; reflexivity.
Defined.

(** X4.  A list in which each interval starts where the one before it ends
    stays so under the decorator: truncation opens no gap, and the union
    runs between the truncated ends. *)
Theorem integer_segments_contiguous {A : Type}
    (f : A → option SegmentList) (args : A) (segs : SegmentList) (a b : Q) :
  f args = Some segs → chain a b segs →
  ∃ out : SegmentList,
    integer_segments f args = Some out
    ∧ chain (inject_Z (trunc a)) (inject_Z (trunc b)) out
    ∧ union_is out (inject_Z (trunc a)) (inject_Z (trunc b)).
Proof.
  intros Hf Hc. exists (map int_segment segs).
  pose proof (chain_int _ _ _ Hc) as Hout.
  split; [unfold integer_segments; rewrite Hf; reflexivity |].
  split; [exact Hout | apply chain_union, Hout].
Qed.

Lemma integer_segments_contiguous_witness :
  ∃ out : SegmentList,
    integer_segments (λ _ : unit, Some two_fractional_segments) () = Some out
    ∧ chain (inject_Z (trunc (3 # 2))) (inject_Z (trunc (9 # 2))) out
    ∧ union_is out (inject_Z (trunc (3 # 2))) (inject_Z (trunc (9 # 2))).
Proof.
  apply (integer_segments_contiguous
           (λ _ : unit, Some two_fractional_segments) ()
           two_fractional_segments).
  - reflexivity.
  - apply chainb_chain. vm_compute. reflexivity.
Defined.

(** *** How far truncation moves an endpoint *)

Lemma trunc_bounds_nonneg (x : Q) :
  0 <= x → inject_Z (trunc x) <= x ∧ x < inject_Z (trunc x) + 1.
Proof.
  intros H. rewrite (trunc_nonneg x H). split; [apply Qfloor_le |].
  pose proof (Qlt_floor x) as K. rewrite inject_Z_plus in K. exact K.
Qed.

Lemma trunc_bounds_nonpos (x : Q) :
  x <= 0 → x <= inject_Z (trunc x) ∧ inject_Z (trunc x) < x + 1.
Proof.
  intros H. rewrite (trunc_nonpos x H). split; [apply Qle_ceiling |].
  pose proof (Qceiling_lt x) as K. unfold Z.sub in K.
  rewrite inject_Z_plus, inject_Z_opp in K. change (inject_Z 1) with 1 in K.
  lra.
Qed.

(** Between ordered points the truncated distance is less than one above
    the distance, more than two below it, and more than one below it when
    the points are not negative. *)
Lemma trunc_distance (x y : Q) :
  x <= y →
  inject_Z (trunc y) - inject_Z (trunc x) < y - x + 1
  ∧ y - x - 2 < inject_Z (trunc y) - inject_Z (trunc x)
  ∧ (0 <= x → y - x - 1 < inject_Z (trunc y) - inject_Z (trunc x)).
Proof.
  intros Hxy.
  destruct (Qlt_le_dec x 0) as [Hx | Hx], (Qlt_le_dec y 0) as [Hy | Hy].
  - destruct (trunc_bounds_nonpos x ltac:(lra)), (trunc_bounds_nonpos y ltac:(lra)).
    repeat split; try lra.
  - destruct (trunc_bounds_nonpos x ltac:(lra)), (trunc_bounds_nonneg y Hy).
    repeat split; try lra.
  - exfalso. lra.
  - destruct (trunc_bounds_nonneg x Hx), (trunc_bounds_nonneg y Hy).
    repeat split; try lra.
Qed.

(** X5.  The decorator keeps the length of every interval within bounds: the
    truncated interval is less than 1 longer and less than 2 shorter, and
    less than 1 shorter when the interval starts at 0 or later. *)
Theorem integer_segments_duration {A : Type}
    (f : A → option SegmentList) (args : A) (segs : SegmentList) :
  f args = Some segs → Forall well_formed segs →
  ∃ out : SegmentList,
    integer_segments f args = Some out
    ∧ Forall2 (λ s o,
                 seg_abs o < seg_abs s + 1
                 ∧ seg_abs s - 2 < seg_abs o
                 ∧ (0 <= value s.1 → seg_abs s - 1 < seg_abs o))
        segs out.
Proof.
  intros Hf Hwf. exists (map int_segment segs).
  split; [unfold integer_segments; rewrite Hf; reflexivity |].
  clear Hf. induction Hwf as [| s segs Hs Hwf IH]; simpl; constructor;
    [| exact IH].
  rewrite (int_segment_eq s Hs). unfold seg_abs. cbn [fst snd value].
  rewrite !int_value_trunc. apply trunc_distance, Hs.
Qed.

Lemma integer_segments_duration_witness :
  ∃ out : SegmentList,
    integer_segments (λ _ : unit, Some two_fractional_segments) () = Some out
    ∧ Forall2 (λ s o,
                 seg_abs o < seg_abs s + 1
                 ∧ seg_abs s - 2 < seg_abs o
                 ∧ (0 <= value s.1 → seg_abs s - 1 < seg_abs o))
        two_fractional_segments out.
Proof.
  apply (integer_segments_duration
           (λ _ : unit, Some two_fractional_segments) ()).
  - reflexivity.
  - repeat constructor; vm_compute; discriminate.
Defined.

End IntegerSegmentsFacts.

Module TilingFacts.
Import Segments SegmentFile SegmentsFacts IntegerSegmentsFacts.
Local Open Scope Q_scope.

(** The theorems of this part are stated for [start], [end] and [chunk]
    between -2^50 and 2^50, as those on the tiling above. *)

(** Given enough fuel, what [omicron_output_segments] returns is the
    truncation of the chain that the loop builds. *)
Lemma returned_tiling (fuel : nat) (start end_ chunk segment overlap : Z) :
  small start → small end_ → small chunk →
  (overlap < segment)%Z → (segment <= chunk)%Z → (0 <= overlap)%Z →
  (enough_fuel start end_ <= fuel)%nat →
  ∃ raw : SegmentList,
    omicron_output_segments fuel start end_ chunk segment overlap
    = Some (map int_segment raw)
    ∧ Forall nonempty raw
    ∧ ((overlap < end_ - start)%Z →
       chain (usable_start start overlap) (usable_end end_ overlap) raw)
    ∧ ((end_ - start <= overlap)%Z → raw = []).
Proof.
  intros Hs He Hc Hseg Hchunk Hov Hfuel.
  assert (small segment) as Hg by (unfold small in *; lia).
  destruct (body_tiles start end_ chunk segment overlap Hs He Hc Hg
              ltac:(lia) Hseg Hov)
    as (raw & Hrun & Hne & Hchain & Hnil).
  exists raw. split; [apply (Hrun fuel Hfuel) |].
  split; [exact Hne | split; assumption].
Qed.

Lemma usable_start_ge (start overlap : Z) :
  (0 <= overlap)%Z → inject_Z start <= usable_start start overlap.
Proof.
  intros H. unfold usable_start.
  assert (inject_Z 0 <= inject_Z overlap) by (rewrite <- Zle_Qle; exact H).
  change (inject_Z 0) with 0 in *.
  assert (0 <= inject_Z overlap / 2) by (apply Qle_shift_div_l; lra).
  lra.
Qed.

Lemma usable_end_le (end_ overlap : Z) :
  (0 <= overlap)%Z → usable_end end_ overlap <= inject_Z end_.
Proof.
  intros H. unfold usable_end.
  assert (inject_Z 0 <= inject_Z overlap) by (rewrite <- Zle_Qle; exact H).
  change (inject_Z 0) with 0 in *.
  assert (0 <= inject_Z overlap / 2) by (apply Qle_shift_div_l; lra).
  lra.
Qed.

(** X6.  No file reaches outside the job: the function returns a list, and
    every interval of it has integer endpoints [a <= b] with [start <= a]
    and [b <= end]. *)
Theorem omicron_output_segments_within (fuel : nat)
    (start end_ chunk segment overlap : Z) :
  small start → small end_ → small chunk →
  (segment < chunk)%Z → (overlap < segment)%Z → (0 <= overlap)%Z →
  (enough_fuel start end_ <= fuel)%nat →
  ∃ l : SegmentList,
    omicron_output_segments fuel start end_ chunk segment overlap = Some l
    ∧ Forall (λ s, ∃ a b : Z,
                s = (PInt a, PInt b)
                ∧ (start <= a)%Z ∧ (a <= b)%Z ∧ (b <= end_)%Z)
        l.
Proof.
  intros Hsmall He Hk Hchunk Hseg Hov Hfuel.
  destruct (returned_tiling fuel start end_ chunk segment overlap Hsmall He Hk
              Hseg ltac:(lia) Hov Hfuel)
    as (raw & Hrun & _ & Hc & Hnil).
  exists (map int_segment raw). split; [exact Hrun |].
  destruct (Z_lt_le_dec overlap (end_ - start)) as [Hlong | Hshort].
  - specialize (Hc Hlong). apply Forall_forall. intros s Hs.
    apply list_elem_of_fmap in Hs as (r & -> & Hr).
    destruct (chain_bounds _ _ _ _ Hc Hr) as (H1 & Hw & H2).
    rewrite (int_segment_eq r Hw).
    exists (int r.1), (int r.2). split; [reflexivity |].
    split; [| split].
    + rewrite <- (trunc_inject_Z start), int_value_trunc. apply trunc_mono.
      pose proof (usable_start_ge start overlap Hov). lra.
    + apply int_mono, Hw.
    + rewrite <- (trunc_inject_Z end_), int_value_trunc. apply trunc_mono.
      pose proof (usable_end_le end_ overlap Hov). lra.
  - rewrite (Hnil Hshort). constructor.
Qed.

Lemma omicron_output_segments_within_witness :
  ∃ l : SegmentList,
    omicron_output_segments 11 0 10 4 2 1 = Some l
    ∧ Forall (λ s, ∃ a b : Z,
                s = (PInt a, PInt b)
                ∧ (0 <= a)%Z ∧ (a <= b)%Z ∧ (b <= 10)%Z)
        l.
Proof.
  apply (omicron_output_segments_within 11 0 10 4 2 1); unfold small; try lia.
  vm_compute. lia.
Defined.

(** X7.  Under the preconditions the function returns a list, which is
    empty exactly when the job is no longer than the overlap. *)
Theorem omicron_output_segments_empty_iff (fuel : nat)
    (start end_ chunk segment overlap : Z) :
  small start → small end_ → small chunk →
  (segment < chunk)%Z → (overlap < segment)%Z → (0 <= overlap)%Z →
  (enough_fuel start end_ <= fuel)%nat →
  ∃ l : SegmentList,
    omicron_output_segments fuel start end_ chunk segment overlap = Some l
    ∧ (l = [] ↔ (end_ - start <= overlap)%Z).
Proof.
  intros Hsmall He Hk Hchunk Hseg Hov Hfuel.
  destruct (returned_tiling fuel start end_ chunk segment overlap Hsmall He Hk
              Hseg ltac:(lia) Hov Hfuel)
    as (raw & Hrun & _ & Hc & Hnil).
  exists (map int_segment raw). split; [exact Hrun |].
  split.
  - intros Hempty.
    destruct (Z_lt_le_dec overlap (end_ - start)) as [Hlong | Hshort];
      [| exact Hshort].
    exfalso. specialize (Hc Hlong). apply span_nonempty in Hlong.
    destruct raw as [| r raw]; [| discriminate].
    simpl in Hc. lra.
  - intros Hshort. rewrite (Hnil Hshort). reflexivity.
Qed.

Lemma omicron_output_segments_empty_iff_witness :
  ∃ l : SegmentList,
    omicron_output_segments 11 0 10 4 2 1 = Some l
    ∧ (l = [] ↔ (10 - 0 <= 1)%Z).
Proof.
  apply (omicron_output_segments_empty_iff 11 0 10 4 2 1);
    unfold small; try lia.
  vm_compute. lia.
Defined.

(** *** The length of the files *)

Lemma exact_inner_loop_lengths (fseg : Z) (fend e B : Q) :
  (1 <= fseg)%Z → inject_Z fseg <= B → e <= fend →
  ∀ (fuel : nat) (t : Q) (out : SegmentList) (r : Q * SegmentList),
    exact_inner_loop fuel fseg fend e t out = Some r →
    Forall (λ s, well_formed s ∧ seg_abs s <= B) out →
    Forall (λ s, well_formed s ∧ seg_abs s <= B) r.2.
Proof.
  intros Hfseg HB He.
  assert (1 <= inject_Z fseg) as Hq
    by (change 1 with (inject_Z 1); rewrite <- Zle_Qle; exact Hfseg).
  induction fuel as [| k IH]; intros t out r; cbn [exact_inner_loop];
    destruct (Qltb t e) eqn:Hb;
    try discriminate; try (intros [= <-] Hout; exact Hout).
  apply Qltb_lt in Hb. intros Hrun Hout.
  apply (IH _ _ _ Hrun). apply Forall_app. split; [exact Hout |].
  constructor; [| constructor].
  pose proof (Q.le_min_l (t + inject_Z fseg) fend) as Hmin.
  assert (t <= Qmin (t + inject_Z fseg) fend) as Hord.
  { destruct (Q.min_spec (t + inject_Z fseg) fend) as [[_ ->] | [_ ->]]; lra. }
  rewrite Segment_ordered by exact Hord.
  unfold well_formed, seg_abs. cbn [fst snd value]. split; lra.
Qed.

Lemma exact_outer_loop_lengths (fdur fseg : Z) (fend : Q) :
  (1 <= fseg)%Z → (fseg <= fdur)%Z →
  ∀ (fuel : nat) (t : Q) (out r : SegmentList),
    exact_outer_loop fuel fdur fseg fend t out = Some r →
    Forall (λ s, well_formed s ∧ seg_abs s <= inject_Z fdur) out →
    Forall (λ s, well_formed s ∧ seg_abs s <= inject_Z fdur) r.
Proof.
  intros Hfseg Hfdur.
  assert (1 <= inject_Z fseg) as Hq
    by (change 1 with (inject_Z 1); rewrite <- Zle_Qle; exact Hfseg).
  assert (inject_Z fseg <= inject_Z fdur) as Hq'
    by (rewrite <- Zle_Qle; exact Hfdur).
  induction fuel as [| k IH]; intros t out r; cbn [exact_outer_loop];
    destruct (Qltb t fend) eqn:Hb;
    try discriminate; try (intros [= <-] Hout; exact Hout).
  apply Qltb_lt in Hb.
  set (e := Qmin (t + inject_Z fdur) fend).
  assert (e <= fend) as Hefend by apply Q.le_min_r.
  assert (e <= t + inject_Z fdur) as Hedur by apply Q.le_min_l.
  assert (t <= e) as Hord.
  { unfold e.
    destruct (Q.min_spec (t + inject_Z fdur) fend) as [[_ ->] | [_ ->]]; lra. }
  rewrite Segment_ordered by exact Hord.
  destruct (_ && _).
  - destruct (exact_inner_loop k fseg fend e t out) as [[t' out'] |] eqn:Hin;
      [| discriminate].
    intros Hrun Hout. apply (IH _ _ _ Hrun).
    apply (exact_inner_loop_lengths fseg fend e (inject_Z fdur) Hfseg Hq' Hefend
             k t out (t', out') Hin Hout).
  - intros Hrun Hout. apply (IH _ _ _ Hrun).
    apply Forall_app. split; [exact Hout |]. constructor; [| constructor].
    unfold well_formed, seg_abs. cbn [fst snd value]. split; lra.
Qed.

(** On rationals, no interval is longer than a chunk without its
    overlap. *)
Lemma exact_output_segments_lengths (fuel : nat)
    (start end_ chunk segment overlap : Z) (l : SegmentList) :
  (overlap < segment)%Z → (segment <= chunk)%Z →
  exact_output_segments fuel start end_ chunk segment overlap = Some l →
  Forall (λ s, ∃ a b : Z,
            s = (PInt a, PInt b) ∧ (a <= b)%Z ∧ (b - a <= chunk - overlap)%Z)
    l.
Proof.
  intros Hseg Hchunk Hrun.
  unfold exact_output_segments, integer_segments in Hrun.
  destruct (exact_body fuel _) as [raw |] eqn:Hraw;
    [| discriminate].
  injection Hrun as <-. unfold exact_body in Hraw.
  pose proof (exact_outer_loop_lengths (chunk - overlap) (segment - overlap) _
                ltac:(lia) ltac:(lia) _ _ _ _ Hraw ltac:(constructor)) as Hlen.
  apply Forall_forall. intros s Hs.
  apply list_elem_of_fmap in Hs as (r & -> & Hr).
  rewrite Forall_forall in Hlen. destruct (Hlen r Hr) as [Hw Habs].
  rewrite (int_segment_eq r Hw).
  exists (int r.1), (int r.2). split; [reflexivity |].
  split; [apply int_mono, Hw |].
  destruct (trunc_distance _ _ Hw) as (Hup & _).
  unfold seg_abs in Habs. rewrite !int_value_trunc.
  assert (inject_Z (trunc (value r.2) - trunc (value r.1))
          < inject_Z (chunk - overlap + 1)) as Hlt.
  { unfold Z.sub. rewrite !inject_Z_plus, !inject_Z_opp.
    change (inject_Z 1) with 1.
    unfold Z.sub in Habs. rewrite inject_Z_plus, inject_Z_opp in Habs. lra. }
  rewrite <- Zlt_Qlt in Hlt. lia.
Qed.

(** X8.  No file is longer than a chunk without its overlap: the function
    returns a list, and every interval of it has integer endpoints
    [a <= b] with [b - a <= chunk - overlap]. *)
Theorem omicron_output_segments_lengths (fuel : nat)
    (start end_ chunk segment overlap : Z) :
  small start → small end_ → small chunk →
  (overlap < segment)%Z → (segment <= chunk)%Z → (0 <= overlap)%Z →
  (enough_fuel start end_ <= fuel)%nat →
  ∃ l : SegmentList,
    omicron_output_segments fuel start end_ chunk segment overlap = Some l
    ∧ Forall (λ s, ∃ a b : Z,
                s = (PInt a, PInt b)
                ∧ (a <= b)%Z ∧ (b - a <= chunk - overlap)%Z)
        l.
Proof.
  intros Hs He Hk Hseg Hchunk Hov Hfuel.
  destruct (returned_tiling fuel start end_ chunk segment overlap Hs He Hk
              Hseg Hchunk Hov Hfuel)
    as (raw & Hrun & _).
  exists (map int_segment raw). split; [exact Hrun |].
  rewrite output_agrees in Hrun by (unfold small in *; lia).
  apply (exact_output_segments_lengths fuel start end_ chunk segment overlap
           _ Hseg Hchunk Hrun).
Qed.

Lemma omicron_output_segments_lengths_witness :
  ∃ l : SegmentList,
    omicron_output_segments 11 0 10 4 2 1 = Some l
    ∧ Forall (λ s, ∃ a b : Z,
                s = (PInt a, PInt b) ∧ (a <= b)%Z ∧ (b - a <= 4 - 1)%Z)
        l.
Proof.
  apply (omicron_output_segments_lengths 11 0 10 4 2 1);
    unfold small; try lia.
  vm_compute. lia.
Defined.

(** *** A span of whole chunks *)

(** When [n] full file lengths are left before [fend], the outer loop
    appends [n] intervals of that length and never subdivides. *)
Lemma exact_outer_loop_full_chunks (fdur fseg : Z) (fend : Q) :
  (1 <= fdur)%Z →
  ∀ (n fuel : nat) (t : Q),
    fend == t + inject_Z (Z.of_nat n) * inject_Z fdur →
    (n <= fuel)%nat →
    ∃ l : SegmentList,
      (∀ out, exact_outer_loop fuel fdur fseg fend t out = Some (out ++ l))
      ∧ length l = n
      ∧ Forall (λ s, seg_abs s == inject_Z fdur) l.
Proof.
  intros Hfdur.
  assert (1 <= inject_Z fdur) as Hq
    by (change 1 with (inject_Z 1); rewrite <- Zle_Qle; exact Hfdur).
  induction n as [| n IH]; intros fuel t Hfend Hfuel.
  - exists []. split; [| split; [reflexivity | constructor]].
    intros out. rewrite app_nil_r. apply exact_outer_loop_done.
    change (inject_Z (Z.of_nat 0)) with 0 in Hfend. lra.
  - destruct fuel as [| k]; [lia |].
    rewrite Nat2Z.inj_succ in Hfend. unfold Z.succ in Hfend.
    rewrite inject_Z_plus in Hfend. change (inject_Z 1) with 1 in Hfend.
    assert (0 <= inject_Z (Z.of_nat n)) as Hn
      by (change 0 with (inject_Z 0); rewrite <- Zle_Qle; lia).
    assert (0 <= inject_Z (Z.of_nat n) * inject_Z fdur) as Hprod
      by (apply Qmult_le_0_compat; lra).
    assert (t + inject_Z fdur <= fend) as Hfit by (rewrite Hfend; lra).
    set (e := Qmin (t + inject_Z fdur) fend).
    assert (e == t + inject_Z fdur) as He by (apply Q.min_l, Hfit).
    assert (fend == e + inject_Z (Z.of_nat n) * inject_Z fdur) as Hrest
      by (rewrite He, Hfend; ring).
    destruct (IH k e Hrest ltac:(lia)) as (l & Hrun & Hlen & Hall).
    exists ((PFloat t, PFloat e) :: l). split; [| split].
    + intros out. cbn [exact_outer_loop].
      assert (Qltb t fend = true) as -> by (apply Qltb_lt; lra).
      fold e. rewrite Segment_ordered by (simpl; lra).
      unfold seg_abs. cbn [fst snd value].
      assert (Qltb (e - t) (inject_Z fdur) = false) as ->
        by (apply Qltb_ge; lra).
      rewrite andb_false_r, Hrun, <- app_assoc. reflexivity.
    + simpl. rewrite Hlen. reflexivity.
    + constructor; [| exact Hall]. unfold seg_abs. simpl. lra.
Qed.

(** On rationals, a span of [n] times [chunk - overlap] gets [n] intervals
    of that length. *)
Lemma exact_body_whole_chunks (n fuel : nat)
    (start end_ chunk segment overlap : Z) :
  (overlap < chunk)%Z →
  (end_ - start - overlap = Z.of_nat n * (chunk - overlap))%Z →
  (n <= fuel)%nat →
  ∃ raw : SegmentList,
    exact_body fuel (start, end_, chunk, segment, overlap)
    = Some raw
    ∧ exact_output_segments fuel start end_ chunk segment overlap
      = Some (map int_segment raw)
    ∧ length (map int_segment raw) = n
    ∧ Forall (λ s, seg_abs s == inject_Z (chunk - overlap)) raw.
Proof.
  intros Hchunk Hspan Hfuel.
  assert (usable_end end_ overlap
          == usable_start start overlap
             + inject_Z (Z.of_nat n) * inject_Z (chunk - overlap)) as Hfend.
  { pose proof (span_length start end_ overlap) as H.
    rewrite Hspan, inject_Z_mult in H. lra. }
  destruct (exact_outer_loop_full_chunks (chunk - overlap) (segment - overlap)
              (usable_end end_ overlap) ltac:(lia) n fuel
              (usable_start start overlap) Hfend Hfuel)
    as (raw & Hrun & Hlen & Hall).
  exists raw.
  assert (exact_body fuel
            (start, end_, chunk, segment, overlap) = Some raw) as Hbody
    by (unfold exact_body; apply (Hrun [])).
  split; [exact Hbody | split; [| split]].
  - unfold exact_output_segments, integer_segments. rewrite Hbody.
    reflexivity.
  - rewrite length_map. exact Hlen.
  - exact Hall.
Qed.

(** What the body on floats returns is, interval by interval, what the
    body on rationals returns. *)
Lemma body_as_exact (fuel : nat) (start end_ chunk segment overlap : Z)
    (raw' : SegmentList) :
  small start → small end_ → small chunk → small segment → small overlap →
  (overlap <= chunk)%Z → (overlap <= segment)%Z →
  exact_body fuel (start, end_, chunk, segment, overlap) = Some raw' →
  ∃ raw : SegmentList,
    omicron_output_segments_body fuel (start, end_, chunk, segment, overlap)
    = Some raw
    ∧ omicron_output_segments fuel start end_ chunk segment overlap
      = Some (map int_segment raw)
    ∧ Forall2 same_segment raw raw'.
Proof.
  intros Hs He Hk Hg Ho Hchunk Hseg Hexact.
  pose proof (body_agrees fuel start end_ chunk segment overlap
                Hs He Hk Hg Ho Hchunk Hseg) as H.
  rewrite Hexact in H.
  destruct (omicron_output_segments_body fuel _) as [raw |] eqn:Hbody;
    cbn in H; [| contradiction].
  exists raw. split; [reflexivity | split; [| exact H]].
  unfold omicron_output_segments, integer_segments. rewrite Hbody.
  reflexivity.
Qed.

Lemma same_segments_abs (l l' : SegmentList) (d : Q) :
  Forall2 same_segment l l' →
  Forall (λ s, seg_abs s == d) l' → Forall (λ s, seg_abs s == d) l.
Proof.
  induction 1 as [| s s' l l' Hs _ IH]; intros Hall; [constructor |].
  apply Forall_cons in Hall as [Hd Hl]. constructor; [| apply IH, Hl].
  rewrite (same_segment_abs _ _ Hs). exact Hd.
Qed.

(** X9.  When the span between the paddings is [n] times [chunk - overlap],
    the function returns [n] files, each of them built by the loop with the
    length [chunk - overlap]. *)
Theorem omicron_output_segments_whole_chunks (n fuel : nat)
    (start end_ chunk segment overlap : Z) :
  small start → small end_ → small chunk → small segment →
  (0 <= overlap)%Z → (overlap < chunk)%Z → (overlap <= segment)%Z →
  (end_ - start - overlap = Z.of_nat n * (chunk - overlap))%Z →
  (n <= fuel)%nat →
  ∃ raw : SegmentList,
    omicron_output_segments_body fuel (start, end_, chunk, segment, overlap)
    = Some raw
    ∧ omicron_output_segments fuel start end_ chunk segment overlap
      = Some (map int_segment raw)
    ∧ length (map int_segment raw) = n
    ∧ Forall (λ s, seg_abs s == inject_Z (chunk - overlap)) raw.
Proof.
  intros Hs He Hk Hg Hov Hchunk Hseg Hspan Hfuel.
  destruct (exact_body_whole_chunks n fuel start end_ chunk segment overlap
              Hchunk Hspan Hfuel)
    as (raw' & Hexact & _ & Hlen & Hall).
  destruct (body_as_exact fuel start end_ chunk segment overlap raw'
              Hs He Hk Hg ltac:(unfold small in *; lia) ltac:(lia) Hseg
              Hexact)
    as (raw & Hbody & Hrun & Hsame).
  exists raw. split; [exact Hbody | split; [exact Hrun | split]].
  - rewrite length_map in *. rewrite (Forall2_length _ _ _ Hsame). exact Hlen.
  - apply (same_segments_abs raw raw' _ Hsame Hall).
Qed.

Lemma omicron_output_segments_whole_chunks_witness :
  ∃ raw : SegmentList,
    omicron_output_segments_body 3 (0, 10, 4, 2, 1)%Z = Some raw
    ∧ omicron_output_segments 3 0 10 4 2 1 = Some (map int_segment raw)
    ∧ length (map int_segment raw) = 3%nat
    ∧ Forall (λ s, seg_abs s == inject_Z (4 - 1)) raw.
Proof.
  apply (omicron_output_segments_whole_chunks 3 3 0 10 4 2 1);
    unfold small; lia.
Defined.

(** *** A short job *)

(** On rationals, a span no longer than [segment - overlap] gets one
    interval. *)
Lemma exact_output_segments_single (fuel : nat)
    (start end_ chunk segment overlap : Z) :
  (overlap < end_ - start)%Z → (end_ - start <= segment)%Z →
  (segment <= chunk)%Z → (1 <= fuel)%nat →
  exact_output_segments fuel start end_ chunk segment overlap
  = Some [(PInt (trunc (usable_start start overlap)),
           PInt (trunc (usable_end end_ overlap)))].
Proof.
  intros Hlong Hshort Hchunk Hfuel.
  destruct fuel as [| k]; [lia |].
  pose proof (span_length start end_ overlap) as Hspan.
  pose proof (proj1 (span_nonempty start end_ overlap) Hlong) as Hlt.
  assert (inject_Z (end_ - start - overlap) <= inject_Z (segment - overlap))
    as Hseg by (rewrite <- Zle_Qle; lia).
  assert (inject_Z (segment - overlap) <= inject_Z (chunk - overlap))
    as Hdur by (rewrite <- Zle_Qle; lia).
  unfold exact_output_segments, integer_segments,
    exact_body.
  fold (usable_start start overlap) (usable_end end_ overlap).
  set (t := usable_start start overlap) in *.
  set (fend := usable_end end_ overlap) in *.
  cbn [exact_outer_loop].
  assert (Qltb t fend = true) as -> by (apply Qltb_lt, Hlt).
  set (e := Qmin (t + inject_Z (chunk - overlap)) fend).
  assert (e == fend) as He by (apply Q.min_r; lra).
  rewrite Segment_ordered by (simpl; lra).
  unfold seg_abs. cbn [fst snd value].
  assert (Qltb (inject_Z (segment - overlap)) (e - t) = false) as ->
    by (apply Qltb_ge; lra).
  cbn [andb]. rewrite exact_outer_loop_done by lra.
  simpl. f_equal. f_equal.
  unfold int_segment. cbn [fst snd int].
  rewrite (trunc_comp e fend He).
  apply Segment_ordered. simpl. rewrite <- Zle_Qle. apply trunc_mono. lra.
Qed.

(** X10.  A job whose span between the paddings is no longer than
    [segment - overlap] gets one file, over the whole span. *)
Theorem omicron_output_segments_single (fuel : nat)
    (start end_ chunk segment overlap : Z) :
  small start → small end_ → small chunk → (0 <= overlap)%Z →
  (overlap < end_ - start)%Z → (end_ - start <= segment)%Z →
  (segment <= chunk)%Z → (1 <= fuel)%nat →
  omicron_output_segments fuel start end_ chunk segment overlap
  = Some [(PInt (trunc (usable_start start overlap)),
           PInt (trunc (usable_end end_ overlap)))].
Proof.
  intros Hs He Hk Hov Hlong Hshort Hchunk Hfuel.
  rewrite output_agrees by (unfold small in *; lia).
  apply exact_output_segments_single; assumption.
Qed.

Lemma omicron_output_segments_single_witness :
  omicron_output_segments 1 0 5 10 5 2
  = Some [(PInt (trunc (usable_start 0 2)), PInt (trunc (usable_end 5 2)))].
Proof. apply omicron_output_segments_single; unfold small; lia. Defined.

(** *** A tail shorter than a chunk and longer than a segment *)

(** When [q] segment lengths and a rest [0 < r <= fseg] separate [t] from
    [e], the inner loop appends [q] pieces of the length of a segment and a
    last piece of length [r]. *)
Lemma exact_inner_loop_pieces (fseg : Z) (fend e r : Q) :
  (1 <= fseg)%Z → e == fend → 0 < r → r <= inject_Z fseg →
  ∀ (q fuel : nat) (t : Q),
    e == t + inject_Z (Z.of_nat q) * inject_Z fseg + r →
    (q < fuel)%nat →
    ∃ (t' : Q) (l : SegmentList),
      (∀ out, exact_inner_loop fuel fseg fend e t out = Some (t', out ++ l))
      ∧ length l = S q
      ∧ Forall (λ s, seg_abs s == inject_Z fseg) (take q l)
      ∧ ∃ s : segment, last l = Some s ∧ seg_abs s == r.
Proof.
  intros Hfseg He Hr Hrle.
  assert (1 <= inject_Z fseg) as Hq
    by (change 1 with (inject_Z 1); rewrite <- Zle_Qle; exact Hfseg).
  induction q as [| q IH]; intros fuel t Hspan Hfuel;
    (destruct fuel as [| k]; [lia |]).
  - change (inject_Z (Z.of_nat 0)) with 0 in Hspan.
    set (m := Qmin (t + inject_Z fseg) fend).
    assert (m == fend) as Hm by (apply Q.min_r; lra).
    exists (t + inject_Z fseg), [(PFloat t, PFloat m)].
    split; [| split; [reflexivity | split; [constructor |]]].
    + intros out. cbn [exact_inner_loop].
      assert (Qltb t e = true) as -> by (apply Qltb_lt; lra).
      fold m. rewrite Segment_ordered by (simpl; lra).
      assert (Qltb (t + inject_Z fseg) e = false) as Hb
        by (apply Qltb_ge; lra).
      destruct k; cbn [exact_inner_loop]; rewrite Hb; reflexivity.
    + eexists. split; [reflexivity |]. unfold seg_abs. simpl. lra.
  - rewrite Nat2Z.inj_succ in Hspan. unfold Z.succ in Hspan.
    rewrite inject_Z_plus in Hspan. change (inject_Z 1) with 1 in Hspan.
    assert (0 <= inject_Z (Z.of_nat q)) as Hn
      by (change 0 with (inject_Z 0); rewrite <- Zle_Qle; lia).
    assert (0 <= inject_Z (Z.of_nat q) * inject_Z fseg) as Hprod
      by (apply Qmult_le_0_compat; lra).
    set (m := Qmin (t + inject_Z fseg) fend).
    assert (t + inject_Z fseg < fend) as Hfit by (rewrite <- He, Hspan; lra).
    assert (m == t + inject_Z fseg) as Hm by (apply Q.min_l; lra).
    assert (e == t + inject_Z fseg + inject_Z (Z.of_nat q) * inject_Z fseg + r)
      as Hrest by (rewrite Hspan; ring).
    destruct (IH k (t + inject_Z fseg) Hrest ltac:(lia))
      as (t' & l & Hrun & Hlen & Hall & s & Hlast & Hs).
    exists t', ((PFloat t, PFloat m) :: l).
    split; [| split; [| split]].
    + intros out. cbn [exact_inner_loop].
      assert (Qltb t e = true) as -> by (apply Qltb_lt; lra).
      fold m. rewrite Segment_ordered by (simpl; lra).
      rewrite Hrun, <- app_assoc. reflexivity.
    + simpl. rewrite Hlen. reflexivity.
    + simpl. constructor; [| exact Hall]. unfold seg_abs. simpl. lra.
    + exists s. split; [| exact Hs].
      destruct l as [| s0 l]; [discriminate |]. exact Hlast.
Qed.

(** On rationals, a span shorter than a chunk and longer than a segment is
    cut into pieces of the length of a segment and a rest. *)
Lemma exact_body_subdivides (q fuel : nat)
    (start end_ chunk segment overlap r : Z) :
  (overlap < segment)%Z → (0 < r)%Z → (r <= segment - overlap)%Z →
  (1 <= q)%nat →
  (end_ - start - overlap = Z.of_nat q * (segment - overlap) + r)%Z →
  (end_ - start < chunk)%Z →
  (q + 1 < fuel)%nat →
  ∃ raw : SegmentList,
    exact_body fuel (start, end_, chunk, segment, overlap) = Some raw
    ∧ length (map int_segment raw) = S q
    ∧ Forall (λ s, seg_abs s == inject_Z (segment - overlap)) (take q raw)
    ∧ ∃ s : Segments.segment, last raw = Some s ∧ seg_abs s == inject_Z r.
Proof.
  intros Hseg Hr Hrle Hq Hspan Hshort Hfuel.
  destruct fuel as [| k]; [lia |].
  pose proof (span_length start end_ overlap) as Hlen.
  rewrite Hspan, inject_Z_plus, inject_Z_mult in Hlen.
  assert (0 < inject_Z r) as Hr'
    by (change 0 with (inject_Z 0); rewrite <- Zlt_Qlt; exact Hr).
  assert (inject_Z r <= inject_Z (segment - overlap)) as Hrle'
    by (rewrite <- Zle_Qle; exact Hrle).
  assert (1 <= inject_Z (segment - overlap)) as Hfseg
    by (change 1 with (inject_Z 1); rewrite <- Zle_Qle; lia).
  assert (1 <= inject_Z (Z.of_nat q)) as Hq'
    by (change 1 with (inject_Z 1); rewrite <- Zle_Qle; lia).
  assert (inject_Z (segment - overlap)
          <= inject_Z (Z.of_nat q) * inject_Z (segment - overlap)) as Hprod.
  { rewrite <- (Qmult_1_l (inject_Z (segment - overlap))) at 1.
    apply Qmult_le_compat_r; lra. }
  assert (inject_Z (Z.of_nat q) * inject_Z (segment - overlap) + inject_Z r
          < inject_Z (chunk - overlap)) as Hdur.
  { rewrite <- inject_Z_mult, <- inject_Z_plus, <- Zlt_Qlt. lia. }
  set (t := usable_start start overlap) in *.
  set (fend := usable_end end_ overlap) in *.
  set (e := Qmin (t + inject_Z (chunk - overlap)) fend).
  assert (e == fend) as He by (apply Q.min_r; lra).
  assert (e == t + inject_Z (Z.of_nat q) * inject_Z (segment - overlap)
               + inject_Z r) as Hcut by lra.
  destruct (exact_inner_loop_pieces (segment - overlap) fend e (inject_Z r)
              ltac:(lia) He Hr' Hrle' q k t Hcut ltac:(lia))
    as (t' & raw & Hrun & Hcount & Hall & Hlast).
  exists raw. split; [| split; [| split; assumption]].
  - unfold exact_body.
    fold (usable_start start overlap) (usable_end end_ overlap).
    fold t fend. cbn [exact_outer_loop].
    assert (Qltb t fend = true) as -> by (apply Qltb_lt; lra).
    fold e. rewrite Segment_ordered by (simpl; lra).
    unfold seg_abs. cbn [fst snd value].
    assert (Qltb (inject_Z (segment - overlap)) (e - t) = true) as ->
      by (apply Qltb_lt; lra).
    assert (Qltb (e - t) (inject_Z (chunk - overlap)) = true) as ->
      by (apply Qltb_lt; lra).
    cbn [andb]. rewrite (Hrun []), exact_outer_loop_done by lra. reflexivity.
  - rewrite length_map. exact Hcount.
Qed.

(** X11.  "If shorter than a chunk, but longer than a segment, omicron will
    write files of length 'segment' until exhausted": a job whose span
    between the paddings is [q] times [segment - overlap] plus a rest
    [0 < r <= segment - overlap], with [q >= 1], and is shorter than
    [chunk - overlap], gets [q] files of length [segment - overlap] and a
    last one of length [r]. *)
Theorem omicron_output_segments_subdivides (q fuel : nat)
    (start end_ chunk segment overlap r : Z) :
  small start → small end_ → small chunk → (0 <= overlap)%Z →
  (overlap < segment)%Z → (0 < r)%Z → (r <= segment - overlap)%Z →
  (1 <= q)%nat →
  (end_ - start - overlap = Z.of_nat q * (segment - overlap) + r)%Z →
  (end_ - start < chunk)%Z →
  (q + 1 < fuel)%nat →
  ∃ raw : SegmentList,
    omicron_output_segments_body fuel (start, end_, chunk, segment, overlap)
    = Some raw
    ∧ omicron_output_segments fuel start end_ chunk segment overlap
      = Some (map int_segment raw)
    ∧ length (map int_segment raw) = S q
    ∧ Forall (λ s, seg_abs s == inject_Z (segment - overlap)) (take q raw)
    ∧ ∃ s : Segments.segment, last raw = Some s ∧ seg_abs s == inject_Z r.
Proof.
  intros Hs He Hk Hov Hseg Hr Hrle Hq Hspan Hshort Hfuel.
  destruct (exact_body_subdivides q fuel start end_ chunk segment overlap r
              Hseg Hr Hrle Hq Hspan Hshort Hfuel)
    as (raw' & Hexact & Hlen & Hall & s' & Hlast & Hs').
  assert (segment < chunk)%Z as Hchunk by nia.
  destruct (body_as_exact fuel start end_ chunk segment overlap raw'
              Hs He Hk ltac:(unfold small in *; lia)
              ltac:(unfold small in *; lia) ltac:(lia) ltac:(lia) Hexact)
    as (raw & Hbody & Hrun & Hsame).
  exists raw. split; [exact Hbody | split; [exact Hrun | split; [| split]]].
  - rewrite length_map in *. rewrite (Forall2_length _ _ _ Hsame). exact Hlen.
  - apply (same_segments_abs _ (take q raw')); [| exact Hall].
    apply Forall2_take, Hsame.
  - pose proof (Forall2_last _ _ _ Hsame) as Hl. rewrite Hlast in Hl.
    inversion Hl as [s ? Hss |]; subst. exists s. split; [reflexivity |].
    rewrite (same_segment_abs _ _ Hss). exact Hs'.
Qed.

Lemma omicron_output_segments_subdivides_witness :
  ∃ raw : SegmentList,
    omicron_output_segments_body 4 (0, 9, 20, 5, 2)%Z = Some raw
    ∧ omicron_output_segments 4 0 9 20 5 2 = Some (map int_segment raw)
    ∧ length (map int_segment raw) = 3%nat
    ∧ Forall (λ s, seg_abs s == inject_Z (5 - 2)) (take 2 raw)
    ∧ ∃ s : segment, last raw = Some s ∧ seg_abs s == inject_Z 1.
Proof.
  apply (omicron_output_segments_subdivides 2 4 0 9 20 5 2 1);
    unfold small; lia.
Defined.

(** *** Outside the preconditions *)

(** With a file length of zero or less the cursor of the outer loop never
    moves forward. *)
Lemma exact_outer_loop_stuck (fdur fseg : Z) (fend : Q) :
  (fdur <= 0)%Z →
  ∀ (fuel : nat) (t : Q) (out : SegmentList),
    t < fend → exact_outer_loop fuel fdur fseg fend t out = None.
Proof.
  intros Hfdur.
  assert (inject_Z fdur <= 0) as Hq
    by (change 0 with (inject_Z 0); rewrite <- Zle_Qle; exact Hfdur).
  induction fuel as [| k IH]; intros t out Hlt; cbn [exact_outer_loop];
    apply Qltb_lt in Hlt as Hb; rewrite Hb; [reflexivity |].
  set (e := Qmin (t + inject_Z fdur) fend).
  assert (e <= t + inject_Z fdur) as He by apply Q.le_min_l.
  pose proof (Segment_well_formed (PFloat t) (PFloat e)) as Hw.
  unfold well_formed in Hw.
  assert (Qltb (seg_abs (Segment (PFloat t) (PFloat e))) (inject_Z fdur) = false)
    as -> by (apply Qltb_ge; unfold seg_abs; lra).
  rewrite andb_false_r. apply IH. lra.
Qed.

(** With a segment length of zero or less the cursor of the inner loop
    never moves forward. *)
Lemma exact_inner_loop_stuck (fseg : Z) (fend e : Q) :
  (fseg <= 0)%Z →
  ∀ (fuel : nat) (t : Q) (out : SegmentList),
    t < e → exact_inner_loop fuel fseg fend e t out = None.
Proof.
  intros Hfseg.
  assert (inject_Z fseg <= 0) as Hq
    by (change 0 with (inject_Z 0); rewrite <- Zle_Qle; exact Hfseg).
  induction fuel as [| k IH]; intros t out Hlt; cbn [exact_inner_loop];
    apply Qltb_lt in Hlt as Hb; rewrite Hb; [reflexivity |].
  apply IH. lra.
Qed.

(** On rationals, a cursor that cannot move forward leaves a job longer
    than the overlap unfinished. *)
Lemma exact_output_segments_diverges (fuel : nat)
    (start end_ chunk segment overlap : Z) :
  (overlap < end_ - start)%Z →
  (chunk <= overlap)%Z ∨ ((segment <= overlap)%Z ∧ (end_ - start < chunk)%Z) →
  exact_output_segments fuel start end_ chunk segment overlap = None.
Proof.
  intros Hlong Hbad.
  pose proof (proj1 (span_nonempty start end_ overlap) Hlong) as Hlt.
  unfold exact_output_segments, integer_segments,
    exact_body.
  fold (usable_start start overlap) (usable_end end_ overlap).
  destruct Hbad as [Hchunk | [Hseg Hshort]].
  - rewrite exact_outer_loop_stuck; [reflexivity | lia | exact Hlt].
  - pose proof (span_length start end_ overlap) as Hspan.
    set (t := usable_start start overlap) in *.
    set (fend := usable_end end_ overlap) in *.
    assert (inject_Z (end_ - start - overlap) < inject_Z (chunk - overlap))
      as Hdur by (rewrite <- Zlt_Qlt; lia).
    assert (inject_Z (segment - overlap) <= 0) as Hq
      by (change 0 with (inject_Z 0); rewrite <- Zle_Qle; lia).
    destruct fuel as [| k]; cbn [exact_outer_loop];
      apply Qltb_lt in Hlt as Hb; rewrite Hb; [reflexivity |].
    set (e := Qmin (t + inject_Z (chunk - overlap)) fend).
    assert (e == fend) as He by (apply Q.min_r; lra).
    rewrite Segment_ordered by (simpl; lra).
    unfold seg_abs. cbn [fst snd value].
    assert (Qltb (inject_Z (segment - overlap)) (e - t) = true) as ->
      by (apply Qltb_lt; lra).
    assert (Qltb (e - t) (inject_Z (chunk - overlap)) = true) as ->
      by (apply Qltb_lt; lra).
    cbn [andb]. rewrite exact_inner_loop_stuck; [reflexivity | lia | lra].
Qed.

(** X12.  The preconditions are not checked, and outside them the function
    may never return: on a job longer than the overlap it runs for ever
    when [chunk = overlap], where the cursor of the outer loop does not
    move, and also when [segment = overlap] and the job is shorter than a
    chunk, where that of the inner loop does not. *)
Theorem omicron_output_segments_diverges (fuel : nat)
    (start end_ chunk segment overlap : Z) :
  small start → small end_ → small chunk → small segment → small overlap →
  (overlap < end_ - start)%Z →
  ((chunk = overlap)%Z ∧ (overlap <= segment)%Z)
  ∨ ((segment = overlap)%Z ∧ (end_ - start < chunk)%Z) →
  omicron_output_segments fuel start end_ chunk segment overlap = None.
Proof.
  intros Hs He Hk Hg Ho Hlong Hbad.
  rewrite output_agrees by (try assumption; unfold small in *; lia).
  apply exact_output_segments_diverges; [exact Hlong | lia].
Qed.

Lemma omicron_output_segments_diverges_witness :
  omicron_output_segments 1000 0 10 2 3 2 = None
  ∧ omicron_output_segments 1000 0 10 20 2 2 = None.
Proof.
  split; apply omicron_output_segments_diverges; unfold small; lia.
Defined.

End TilingFacts.

Module WriteSegmentsFacts.
Import Segments SegmentFile StringFacts SegmentsFacts IntegerSegmentsFacts.
Local Open Scope string_scope.

(** The text that [write_segments] leaves in [outfile]. *)
Lemma write_segments_content (segmentlist : SegmentList) (outfile : string)
    (fs : gmap string string) :
  write_segments segmentlist outfile fs !! outfile
  = Some (foldr (λ seg rest, format_segment seg +:+ newline +:+ rest)
            EmptyString segmentlist).
Proof.
  unfold write_segments.
  rewrite lookup_insert_eq, print_segments_lines. reflexivity.
Qed.

Lemma format_int_segment (s : segment) :
  well_formed s → format_segment (int_segment s) = format_segment s.
Proof. intros H. rewrite (int_segment_eq s H). reflexivity. Qed.

Lemma print_int_segments (segs : SegmentList) :
  Forall well_formed segs →
  ∀ written : string,
    print_segments (map int_segment segs) written
    = print_segments segs written.
Proof.
  induction 1 as [| s segs Hs Hwf IH]; intros written; simpl; [reflexivity |].
  rewrite (format_int_segment s Hs). apply IH.
Qed.

(** X13.  Writing what a decorated function returns gives the file that writing
    the undecorated result gives: [%d] truncates as the decorator does. *)
Theorem write_segments_integer_segments {A : Type}
    (f : A → option SegmentList) (args : A) (segs : SegmentList)
    (outfile : string) (fs : gmap string string) :
  f args = Some segs → Forall well_formed segs →
  ∃ out : SegmentList,
    integer_segments f args = Some out
    ∧ write_segments out outfile fs = write_segments segs outfile fs.
Proof.
  intros Hf Hwf. exists (map int_segment segs).
  split; [unfold integer_segments; rewrite Hf; reflexivity |].
  unfold write_segments. rewrite (print_int_segments segs Hwf). reflexivity.
Qed.

Lemma write_segments_integer_segments_witness :
  ∃ out : SegmentList,
    integer_segments (λ _ : unit, Some two_fractional_segments) () = Some out
    ∧ write_segments out "segments.txt" ∅
      = write_segments two_fractional_segments "segments.txt" ∅.
Proof.
  apply (write_segments_integer_segments
           (λ _ : unit, Some two_fractional_segments) ()).
  - reflexivity.
  - repeat constructor; vm_compute; discriminate.
Defined.

(** *** The file determines the integer segments *)

Lemma occurs_append (c : ascii) (s1 s2 : string) :
  occurs c (s1 +:+ s2) = occurs c s1 || occurs c s2.
Proof.
  induction s1 as [| a s1 IH]; simpl_append; simpl; [reflexivity |].
  rewrite IH, orb_assoc. reflexivity.
Qed.

(** A numeral holds digits and at most a sign: no space, no line feed. *)
Lemma numeral_chars (c : ascii) (x : num) :
  c = " "%char ∨ c = LF → occurs c (pct_d x) = false.
Proof.
  intros Hc. unfold pct_d.
  assert (∀ d, occurs c (NilEmpty.string_of_uint d) = false) as Hu
    by (destruct Hc as [-> | ->]; induction d; simpl; auto).
  assert (∀ d, occurs c (NilZero.string_of_uint d) = false) as Hz.
  { intros d. destruct d; try apply Hu.
    destruct Hc as [-> | ->]; reflexivity. }
  destruct (Z.to_int (int x)) as [d | d]; simpl; [apply Hz |].
  rewrite Hz. destruct Hc as [-> | ->]; reflexivity.
Qed.

(** A text is cut in one way only at the first occurrence of [c]. *)
Lemma cut_unique (c : ascii) (d1 d2 r1 r2 : string) :
  occurs c d1 = false → occurs c d2 = false →
  d1 +:+ String c r1 = d2 +:+ String c r2 → d1 = d2 ∧ r1 = r2.
Proof.
  revert d2. induction d1 as [| a d1 IH]; intros [| b d2]; simpl_append;
    simpl; intros H1 H2 Heq.
  - injection Heq as ->. split; reflexivity.
  - injection Heq as <- _. rewrite Ascii.eqb_refl in H2. discriminate.
  - injection Heq as -> _. rewrite Ascii.eqb_refl in H1. discriminate.
  - injection Heq as <- Heq.
    apply orb_false_iff in H1 as [_ H1]. apply orb_false_iff in H2 as [_ H2].
    destruct (IH d2 H1 H2 Heq) as [-> ->]. split; reflexivity.
Qed.

Lemma pct_d_inj (x y : num) : pct_d x = pct_d y → int x = int y.
Proof.
  intros H. pose proof (read_int_pct_d x) as Hx.
  rewrite H, read_int_pct_d in Hx. injection Hx as Hx.
  rewrite !int_value_trunc. symmetry. exact Hx.
Qed.

Lemma segment_line (seg : segment) (rest : string) :
  format_segment seg +:+ newline +:+ rest
  = pct_d seg.1 +:+ String " " (pct_d seg.2 +:+ String LF rest).
Proof.
  unfold format_segment, newline. rewrite !append_assoc.
  simpl_append. reflexivity.
Qed.

Lemma content_inj (l l' : SegmentList) :
  foldr (λ seg rest, format_segment seg +:+ newline +:+ rest) EmptyString l
  = foldr (λ seg rest, format_segment seg +:+ newline +:+ rest) EmptyString l'
  → map int_endpoints l = map int_endpoints l'.
Proof.
  revert l'. induction l as [| seg l IH]; intros [| seg' l']; simpl.
  - reflexivity.
  - rewrite segment_line. intros H.
    apply (f_equal (occurs " ")) in H. rewrite occurs_append in H.
    simpl in H. rewrite orb_true_r in H. discriminate.
  - rewrite segment_line. intros H.
    apply (f_equal (occurs " ")) in H. rewrite occurs_append in H.
    simpl in H. rewrite orb_true_r in H. discriminate.
  - rewrite !segment_line. intros H.
    apply cut_unique in H as [H1 H];
      [| apply numeral_chars; left; reflexivity
       | apply numeral_chars; left; reflexivity].
    apply cut_unique in H as [H2 H];
      [| apply numeral_chars; right; reflexivity
       | apply numeral_chars; right; reflexivity].
    unfold int_endpoints at 1 3.
    rewrite (pct_d_inj _ _ H1), (pct_d_inj _ _ H2), (IH l' H). reflexivity.
Qed.

(** X14.  Two lists leave the same text in the file exactly when they have the
    same truncated endpoints, segment for segment: the file holds the
    integer segments, no less and no more. *)
Theorem write_segments_injective (l l' : SegmentList) (outfile : string)
    (fs fs' : gmap string string) :
  write_segments l outfile fs !! outfile
  = write_segments l' outfile fs' !! outfile
  ↔ map int_endpoints l = map int_endpoints l'.
Proof.
  rewrite !write_segments_content. split.
  - intros [= H]. apply content_inj, H.
  - intros H. f_equal. revert l' H.
    induction l as [| seg l IH]; intros [| seg' l']; simpl; try discriminate;
      [reflexivity |].
    intros [= H1 H2 H]. rewrite (IH l' H). unfold format_segment, pct_d.
    rewrite H1, H2. reflexivity.
Qed.

End WriteSegmentsFacts.

Module TreeFacts.
Import Segments Tree SegmentsFacts IntegerSegmentsFacts.

Lemma entries_GetEntry (i : nat) (tree : Tree) :
  entries (GetEntry i tree) = entries tree.
Proof. unfold GetEntry. destruct (entries tree !! i); reflexivity. Qed.

(** Reading the entries [k], ..., [k + n - 1] appends the segments of these
    entries, whatever the attributes held before. *)
Lemma read_entries_range (n k : nat) (tree : Tree) (segs : SegmentList) :
  (k + n <= length (entries tree))%nat →
  (read_entries (seq k n) tree segs).2
  = segs ++ map (λ entry, Segment entry.1 entry.2)
              (take n (drop k (entries tree))).
Proof.
  revert k tree segs. induction n as [| n IH]; intros k tree segs Hle.
  - simpl. rewrite app_nil_r. reflexivity.
  - cbn [seq read_entries].
    destruct (lookup_lt_is_Some_2 (entries tree) k ltac:(lia)) as [entry He].
    rewrite IH by (rewrite entries_GetEntry; lia).
    rewrite entries_GetEntry, <- app_assoc. f_equal.
    rewrite (drop_S _ _ _ He). simpl. f_equal.
    unfold GetEntry. rewrite He. reflexivity.
Qed.

(** X15.  [segmentlist_from_tree] returns one segment per entry of the tree, in
    the order of the entries and with its endpoints in order; it does not
    coalesce, whatever [coalesce] says, and does not depend on what the
    attributes of the tree held. *)
Theorem segmentlist_from_tree_entries (tree : Tree) (coalesce : bool) :
  segmentlist_from_tree tree coalesce
  = map (λ entry, Segment entry.1 entry.2) (entries tree)
  ∧ length (segmentlist_from_tree tree coalesce) = GetEntries tree
  ∧ Forall well_formed (segmentlist_from_tree tree coalesce).
Proof.
  assert (segmentlist_from_tree tree coalesce
          = map (λ entry, Segment entry.1 entry.2) (entries tree)) as H.
  { unfold segmentlist_from_tree, GetEntries.
    rewrite read_entries_range by lia.
    rewrite drop_0, firstn_all. reflexivity. }
  rewrite H. split; [reflexivity | split].
  - rewrite length_map. reflexivity.
  - apply Forall_forall. intros s Hs.
    apply list_elem_of_fmap in Hs as (entry & -> & _).
    apply Segment_well_formed.
Qed.

End TreeFacts.
